(** * HTTP-to-BLE proxy: chunked transport and request correlation

    A shallow embedding of [main.py] and [macedition.py].  The two editions
    share the protocol core ([chunk_bytes], [notif_handler], the assembly at
    the end of [send_command_and_get_response], [handle_request]) and differ
    in how the connection is opened and torn down.

    Python values are modelled as the code sees them: [bytes] as lists of
    bytes, [int] as [Z], [dict] as finite maps, exceptions as a [result]
    monad.  The library functions the code calls ([json], [base64], [int],
    [aiohttp]) are the fields of a class [Runtime]; the theorems hold for
    every instance, and a reference instance runs the examples.

    One call of [send_command_and_get_response] is a function of a [link],
    the script of what the peripheral and the Bluetooth stack do during the
    call.  Several calls side by side are runs of an event loop, a step
    function on the calls in flight. *)

From Stdlib Require Import ZArith QArith Qcanon Strings.Byte Strings.Ascii.
From stdpp Require Import base gmap list strings sorting pretty.

Open Scope Z_scope.

(** ** Python values *)

Module Py.

(** The exceptions the modelled code can meet. *)
Inductive exn :=
  | UnicodeDecodeError | JSONDecodeError | AttributeError | TypeError
  | ValueError | OverflowError | KeyError | binascii_Error
  | TimeoutError (message : string)
  | BleakError | RuntimeError | ConnectionResetError.

Global Instance exn_eq_dec : EqDecision exn.
Proof. solve_decision. Defined.

(** A computation that returns or raises. *)
Inductive result (A : Type) :=
  | Ok (a : A)
  | Raise (e : exn).
Global Arguments Ok {A} a.
Global Arguments Raise {A} e.

Definition bind {A B} (r : result A) (k : A → result B) : result B :=
  match r with
  | Ok a => k a
  | Raise e => Raise e
  end.

(** Apply [f] to every element in turn; the first exception ends the loop. *)
Fixpoint collect {A B} (f : A → result B) (l : list A) : result (list B) :=
  match l with
  | [] => Ok []
  | x :: l' =>
      match f x with
      | Ok y =>
          match collect f l' with
          | Ok ys => Ok (y :: ys)
          | Raise e => Raise e
          end
      | Raise e => Raise e
      end
  end.

Definition bytes := list byte.

(** [len(range(start, stop, step))], as CPython computes it. *)
Definition range_length (start stop step : Z) : Z :=
  if 0 <? step then
    if start <? stop then (stop - start - 1) / step + 1 else 0
  else
    if stop <? start then (start - stop - 1) / (- step) + 1 else 0.

(** [range(start, stop, step)]; a zero step is a [ValueError]. *)
Definition range (start stop step : Z) : result (list Z) :=
  if step =? 0 then Raise ValueError
  else Ok ((λ k : nat, start + Z.of_nat k * step)
             <$> seq 0 (Z.to_nat (range_length start stop step))).

(** A slice bound is counted from the end when negative and clamped into
    [0..len]. *)
Definition slice_bound (len i : Z) : Z :=
  if i <? 0 then Z.max 0 (i + len) else Z.min i len.

(** [l[i:j]] *)
Definition slice {A} (l : list A) (i j : Z) : list A :=
  let len := Z.of_nat (length l) in
  let lo := slice_bound len i in
  let hi := slice_bound len j in
  take (Z.to_nat (hi - lo)) (drop (Z.to_nat lo) l).

(** A [float]: a finite value, an infinity or the not-a-number value.
    Every finite binary64 value is a rational; only truncation, the test
    against zero and equality are ever applied to it. *)
Inductive pyfloat :=
  | Finite (q : Q)
  | Inf (negative : bool)
  | NaN.

#[local] Set Warnings "-register-all".

(** What [json.loads] returns.  [JStr] holds a [str] (as its UTF-8 text),
    [JDict] the items of a [dict] in insertion order; looking a key up takes
    the first item that has it. *)
Inductive json :=
  | JNull
  | JBool (b : bool)
  | JInt (z : Z)
  | JFloat (f : pyfloat)
  | JStr (s : string)
  | JList (l : list json)
  | JDict (items : list (string * json)).

Fixpoint items_get (items : list (string * json)) (k : string) : option json :=
  match items with
  | [] => None
  | (k', v) :: rest => if String.eqb k' k then Some v else items_get rest k
  end.

(** [d.get(k, dflt)]: only a [dict] has the method. *)
Definition get (d : json) (k : string) (dflt : json) : result json :=
  match d with
  | JDict items => Ok (default dflt (items_get items k))
  | _ => Raise AttributeError
  end.

(** [d[k]] for a [str] key [k]. *)
Definition getitem (d : json) (k : string) : result json :=
  match d with
  | JDict items =>
      match items_get items k with
      | Some v => Ok v
      | None => Raise KeyError
      end
  | _ => Raise TypeError
  end.

(** [bool(v)] *)
Definition truthy (v : json) : bool :=
  match v with
  | JNull => false
  | JBool b => b
  | JInt z => negb (z =? 0)
  | JFloat (Finite q) => negb (Qeq_bool q 0)
  | JFloat _ => true
  | JStr s => negb (String.eqb s "")
  | JList l => match l with [] => false | _ => true end
  | JDict items => match items with [] => false | _ => true end
  end.

(** The key a hashable value is filed under in a [dict]: equal values share
    a key, so [True], [1] and [1.0] are one key. *)
Inductive key :=
  | KNone
  | KStr (s : string)
  | KNum (q : Qc)
  | KInf (negative : bool)
  | KNaN.

Global Instance key_eq_dec : EqDecision key.
Proof. solve_decision. Defined.

Global Instance key_countable : Countable key.
Proof.
  refine (inj_countable'
    (λ k, match k with
          | KNone => inl ()
          | KStr s => inr (inl s)
          | KNum q => inr (inr (inl q))
          | KInf b => inr (inr (inr (inl b)))
          | KNaN => inr (inr (inr (inr ())))
          end)
    (λ x, match x with
          | inl () => KNone
          | inr (inl s) => KStr s
          | inr (inr (inl q)) => KNum q
          | inr (inr (inr (inl b))) => KInf b
          | inr (inr (inr (inr ()))) => KNaN
          end) _).
  by intros [].
Defined.

(** The key of a value; a [list] or a [dict] is unhashable. *)
Definition hash_key (v : json) : result key :=
  match v with
  | JNull => Ok KNone
  | JBool b => Ok (KNum (Q2Qc (inject_Z (if b then 1 else 0))))
  | JInt z => Ok (KNum (Q2Qc (inject_Z z)))
  | JFloat (Finite q) => Ok (KNum (Q2Qc q))
  | JFloat (Inf b) => Ok (KInf b)
  | JFloat NaN => Ok KNaN
  | JStr s => Ok (KStr s)
  | JList _ | JDict _ => Raise TypeError
  end.

(** A [web.Response]: its status, its headers and its body, given as
    [text] or as [body]. *)
Inductive content :=
  | Text (s : string)
  | Body (b : bytes).

Record response := {
  status : Z;
  headers : list (string * string);
  body : content;
}.

(** The library functions the proxy calls.  The code's behaviour is stated
    for any implementation of them. *)
Class Runtime := {
  (** [b.decode("utf-8")] *)
  utf8_decode : bytes → result string;
  (** [s.encode("utf-8")] *)
  utf8_encode : string → bytes;
  (** [json.loads(s)] *)
  json_loads : string → result json;
  (** [json.dumps(v)] *)
  json_dumps : json → string;
  (** [base64.b64decode(s)] for a [str] *)
  b64decode : string → result bytes;
  (** [base64.b64encode(b).decode("ascii")] *)
  b64encode : bytes → string;
  (** [int(s)] for a [str] *)
  int_of_str : string → result Z;
  (** [str(e)] for an exception *)
  str_of_exn : exn → string;
  (** [dict(request.headers)]: the items of the dict made of the headers of
      a request, one for each name, in insertion order *)
  dict_of_headers : list (string * string) → list (string * string);
  (** the headers of [web.Response(headers=v)] *)
  response_headers : json → result (list (string * string));
}.

(** [web.Response(body=b, status=n, headers=v)]: the status and the body are
    stored as they are given; only the headers can be refused. *)
Definition web_Response `{Runtime} (b : bytes) (n : Z) (v : json)
    : result response :=
  bind (response_headers v)
       (λ hs, Ok {| status := n; headers := hs; body := Body b |}).

(** [str(e)]: an exception the proxy raises itself carries its text. *)
Definition describe `{Runtime} (e : exn) : string :=
  match e with
  | TimeoutError message => message
  | _ => str_of_exn e
  end.

(** [int(v)] *)
Definition int `{Runtime} (v : json) : result Z :=
  match v with
  | JBool b => Ok (if b then 1 else 0)
  | JInt z => Ok z
  | JFloat (Finite q) => Ok (Z.quot (Qnum q) (Z.pos (Qden q)))
  | JFloat (Inf _) => Raise OverflowError
  | JFloat NaN => Raise ValueError
  | JStr s => int_of_str s
  | JNull | JList _ | JDict _ => Raise TypeError
  end.

(** [base64.b64decode(v)]: a value that is no [str] is a [TypeError]. *)
Definition b64decode_value `{Runtime} (v : json) : result bytes :=
  match v with
  | JStr s => b64decode s
  | _ => Raise TypeError
  end.

End Py.
Import Py.

Notation "'let!' x ':=' r 'in' k" := (Py.bind r (λ x, k))
  (at level 10, x pattern, r at level 100, k at level 200).

(** ** Fragmenter *)

Definition BLE_CHUNK_SIZE : Z := 120.
Definition REQUEST_TIMEOUT : Q := 90.

(** [chunk_bytes(b, n)]: the chunks the generator yields, in order. *)
Definition chunk_bytes (b : bytes) (n : Z) : result (list bytes) :=
  let! starts := range 0 (Z.of_nat (length b)) n in
  Ok ((λ i, slice b i (i + n)) <$> starts).

(** ** Reassembler *)

(** What [notif_handler] extracts from one notification. *)
Record fragment := {
  frag_id : key;
  frag_seq : Z;
  frag_payload : bytes;
  frag_final : bool;
}.

(** The two objects a call of [send_command_and_get_response] creates and
    its [notif_handler] closes over: the dict [fragments] and the event
    [finished]. *)
Record cycle := {
  fragments : gmap key (gmap Z bytes);
  finished : bool;
}.

Definition new_cycle : cycle := {| fragments := ∅; finished := false |}.

Section reassembler.
Context `{Runtime}.

(** The body of the [try] of [notif_handler] up to the store: every step
    that can raise, in the order of the source. *)
Definition decode_fragment (data : bytes) : result fragment :=
  let! decoded := utf8_decode data in
  let! msg := json_loads decoded in
  let! rid := get msg "id" JNull in
  let! seq_v := get msg "seq" (JInt 0) in
  let! seq := int seq_v in
  let! payload_b64 := get msg "payload_b64" (JStr "") in
  let! final_v := get msg "final" (JBool false) in
  let final := truthy final_v in
  let! payload :=
    (if truthy payload_b64 then b64decode_value payload_b64 else Ok []) in
  let! k := hash_key rid in
  Ok {| frag_id := k; frag_seq := seq; frag_payload := payload;
        frag_final := final |}.

(** [fragments.get(rid, {})], also what [setdefault(rid, {})] returns. *)
Definition parts_of (frs : gmap key (gmap Z bytes)) (rid : key) : gmap Z bytes :=
  default ∅ (frs !! rid).

(** [fragments.setdefault(rid, {})[seq] = payload] *)
Definition store (f : fragment) (frs : gmap key (gmap Z bytes))
    : gmap key (gmap Z bytes) :=
  <[frag_id f := <[frag_seq f := frag_payload f]> (parts_of frs (frag_id f))]> frs.

(** The store followed by [if final: finished.set()]. *)
Definition ingest (f : fragment) (c : cycle) : cycle :=
  {| fragments := store f (fragments c);
     finished := frag_final f || finished c |}.

(** [notif_handler(sender, data)]: nothing is changed before the store, so
    the [except] branch leaves the cycle as it was. *)
Definition notif_handler (c : cycle) (data : bytes) : cycle :=
  match decode_fragment data with
  | Ok f => ingest f c
  | Raise _ => c
  end.

(** [sorted(parts.keys())] *)
Definition sorted_keys (parts : gmap Z bytes) : list Z :=
  merge_sort Z.le (map_to_list parts).*1.

(** [parts[i]] *)
Definition part (parts : gmap Z bytes) (i : Z) : result bytes :=
  match parts !! i with
  | Some p => Ok p
  | None => Raise KeyError
  end.

(** The assembly at the end of [send_command_and_get_response]:
    [parts = fragments.get(rid, {})] and the join over the sorted keys. *)
Definition assemble (frs : gmap key (gmap Z bytes)) (rid : key) : result bytes :=
  let parts := parts_of frs rid in
  let! pieces := collect (part parts) (sorted_keys parts) in
  Ok (concat pieces).

(** The payload filed under an id and a sequence number, if any. *)
Definition stored (c : cycle) (rid : key) (seq : Z) : option bytes :=
  parts_of (fragments c) rid !! seq.

(** The notifications one of the steps of [notif_handler] rejects: bytes
    that are not UTF-8, text that is not JSON, a value that is not an
    object, a [seq] that [int] rejects, a non-empty [payload_b64] that
    the base64 decoder rejects, an [id] that cannot be a [dict] key. *)
Inductive malformed (data : bytes) : Prop :=
  | not_utf8 e :
      utf8_decode data = Raise e → malformed data
  | not_json s e :
      utf8_decode data = Ok s → json_loads s = Raise e → malformed data
  | not_an_object s msg :
      utf8_decode data = Ok s → json_loads s = Ok msg →
      (∀ items, msg ≠ JDict items) → malformed data
  | bad_seq s items e :
      utf8_decode data = Ok s → json_loads s = Ok (JDict items) →
      int (default (JInt 0) (items_get items "seq")) = Raise e →
      malformed data
  | bad_payload s items e :
      utf8_decode data = Ok s → json_loads s = Ok (JDict items) →
      truthy (default (JStr "") (items_get items "payload_b64")) = true →
      b64decode_value (default (JStr "") (items_get items "payload_b64"))
        = Raise e →
      malformed data
  | bad_id s items e :
      utf8_decode data = Ok s → json_loads s = Ok (JDict items) →
      hash_key (default JNull (items_get items "id")) = Raise e →
      malformed data.

(** Whether a notification is a fragment of the id [rid]. *)
Definition carries (rid : key) (d : bytes) : bool :=
  match decode_fragment d with
  | Ok f => bool_decide (frag_id f = rid)
  | Raise _ => false
  end.

(** The fragment of a message that has none of the four fields. *)
Definition default_fragment : fragment :=
  {| frag_id := KNone; frag_seq := 0; frag_payload := []; frag_final := false |}.
End reassembler.

(** The pieces of a response, each with its position as sequence number. *)
Definition numbered (pieces : list bytes) : list (Z * bytes) :=
  imap (λ i p, (Z.of_nat i, p)) pieces.

(** ** Device selection and connection

    The functions around the cycle: the scan with its prompt and the
    connection with retries. *)

(** What [BleakScanner.discover] lists. *)
Record device := {
  dev_name : option string;
  dev_address : string;
}.

(** [l[i]] for an [int] [i], counted from the end when negative; [None]
    stands for [IndexError]. *)
Definition list_item {A} (l : list A) (i : Z) : option A :=
  let n := Z.of_nat (length l) in
  let j := if i <? 0 then i + n else i in
  if (0 <=? j) && (j <? n) then l !! Z.to_nat j else None.

(** How one attempt of [safe_connect] ends: [connect] returns and the
    client is connected, [connect] returns and it is not, or an exception is
    raised. *)
Inductive attempt :=
  | Connects
  | Stays_disconnected
  | Fails (e : exn).

(** A GATT characteristic and a service, as the detection reads them. *)
Record characteristic := {
  uuid : string;
  properties : list string;
}.

Record service := {
  svc_uuid : string;
  characteristics : list characteristic;
}.

(** [p in props] *)
Definition has (p : string) (props : list string) : bool :=
  bool_decide (p ∈ props).

(** [for service in services: for char in service.characteristics] *)
Definition all_chars (services : list service) : list characteristic :=
  services ≫= characteristics.

(** The uuid of the first characteristic that offers [p], as in
    [next((c.uuid for c in chars if p in c.properties), None)]. *)
Definition first_with (p : string) (chars : list characteristic) : option string :=
  uuid <$> head (filter (λ c, has p (properties c) = true) chars).

(** [not v] for a value that is [None] or a [str]. *)
Definition unset (v : option string) : bool :=
  match v with
  | Some (String _ _) => false
  | _ => true
  end.

Module Device.
Section device.
Context `{Runtime}.

(** [select_device()]: [discover] is what the scan returns or raises,
    [typed] what [input] returns or raises.  Only [ValueError] and
    [IndexError] are caught. *)
Definition select_device (discover : result (list device))
    (typed : result string) : result (option string) :=
  let! devices := discover in
  match devices with
  | [] => Ok None
  | _ =>
      match (let! text := typed in
             let! index := int_of_str text in
             Ok (list_item devices index)) with
      | Ok (Some d) => Ok (Some (dev_address d))
      | Ok None => Ok None
      | Raise ValueError => Ok None
      | Raise e => Raise e
      end
  end.

(** The loop of [safe_connect] over the attempt numbers; [slept] adds up
    the seconds of [asyncio.sleep]. *)
Fixpoint try_attempts (attempts : nat → attempt) (ks : list Z) (slept : Z)
    : Z * result Z :=
  match ks with
  | [] => (slept, Raise BleakError)
  | k :: ks' =>
      match attempts (Z.to_nat k) with
      | Connects => (slept + 2 + 2, Ok k)
      | Stays_disconnected => try_attempts attempts ks' (slept + 2)
      | Fails _ => try_attempts attempts ks' (slept + 2 + 3)
      end
  end.

(** [safe_connect(address, retries)]: the seconds slept, and the number of
    the attempt whose client is returned. *)
Definition safe_connect (attempts : nat → attempt) (retries : Z)
    : Z * result Z :=
  match range 0 retries 1 with
  | Ok ks => try_attempts attempts ks 0
  | Raise e => (0, Raise e)
  end.
End device.
End Device.

(** ** Transport session and request correlation *)

(** The two source files. *)
Inductive edition := Main | Mac.

(** One notification on the response characteristic: when it is delivered,
    in seconds from the moment the call starts to wait, and its bytes. *)
Record arrival := {
  at_time : Q;
  data : bytes;
}.

(** What the peripheral and the Bluetooth stack do during one call:
    [radio] tells how each attempt to connect ends, [notifications] lists
    the deliveries in order, [settle] counts the deliveries that are still
    handled between the setting of [finished] and the moment the waiting
    coroutine runs again, and [disconnect] is the teardown: the [finally]
    block of [main.py], the exit of the [async with] block of
    [macedition.py]. *)
Record link := {
  radio : nat → attempt;
  start_notify : result ();
  write_gatt_char : nat → bytes → result ();
  notifications : list arrival;
  settle : nat;
  disconnect : result ();
}.

(** The exception raised when the wait times out. *)
Definition timed_out : exn := TimeoutError "Timed out waiting for response".

(** [client = await safe_connect(address)], the connection of [main.py]:
    up to three attempts, and a client that is connected. *)
Definition connect (lk : link) : result () :=
  let! client := (Device.safe_connect (radio lk) 3).2 in
  Ok ().

(** The entry of [async with BleakClient(address, timeout=30) as client],
    the connection of [macedition.py]: one attempt, and [is_connected] is not
    looked at. *)
Definition aenter (lk : link) : result () :=
  match radio lk 0 with
  | Fails e => Raise e
  | _ => Ok ()
  end.

Section session.
Context `{Runtime}.

(** The write loop over the chunks; [k] numbers the writes. *)
Fixpoint write_all (lk : link) (k : nat) (chunks : list bytes) : result () :=
  match chunks with
  | [] => Ok ()
  | chunk :: rest =>
      let! _ := write_gatt_char lk k chunk in
      write_all lk (S k) rest
  end.

(** [asyncio.wait_for(finished.wait(), timeout)] for a positive
    [timeout]: deliveries are handled until [finished] is set or the next
    one comes after the deadline.  Returns the cycle and the deliveries not
    handled yet. *)
Fixpoint await_finished (timeout : Q) (c : cycle) (ns : list arrival)
    : cycle * list arrival :=
  match ns with
  | [] => (c, [])
  | a :: ns' =>
      if finished c then (c, ns)
      else if Qle_bool (at_time a) timeout
           then await_finished timeout (notif_handler c (data a)) ns'
           else (c, ns)
  end.

(** [json.loads(command_bytes.decode("utf-8"))["id"]], as the key
    [fragments.get] looks up. *)
Definition command_id (command_bytes : bytes) : result key :=
  let! decoded := utf8_decode command_bytes in
  let! req_json := json_loads decoded in
  let! rid := getitem req_json "id" in
  hash_key rid.

(** The part of [send_command_and_get_response] that runs on an open
    connection.  With a [timeout] that is not positive [wait_for] cancels
    the wait at once and raises, whether [finished] is set or not. *)
Definition session (lk : link) (command_bytes : bytes) (timeout : Q)
    : result bytes :=
  let! _ := start_notify lk in
  let! chunks := chunk_bytes command_bytes BLE_CHUNK_SIZE in
  let! _ := write_all lk 0 chunks in
  if Qle_bool timeout 0 then Raise timed_out
  else
    let '(c, rest) := await_finished timeout new_cycle (notifications lk) in
    if finished c then
      let c := foldl notif_handler c (data <$> take (settle lk) rest) in
      let! rid := command_id command_bytes in
      assemble (fragments c) rid
    else Raise timed_out.

(** [send_command_and_get_response].  [main.py] connects through
    [safe_connect], before its [try], and its [finally] block swallows what
    [stop_notify] and [disconnect] raise; in [macedition.py] the connection
    is an [async with] block, and an exception of its exit replaces the
    outcome of the body. *)
Definition send_command_and_get_response (ed : edition) (lk : link)
    (command_bytes : bytes) (timeout : Q) : result bytes :=
  match ed with
  | Main =>
      let! _ := connect lk in
      session lk command_bytes timeout
  | Mac =>
      let! _ := aenter lk in
      let outcome := session lk command_bytes timeout in
      match disconnect lk with
      | Ok _ => outcome
      | Raise e => Raise e
      end
  end.
End session.

(** A link on which nothing fails and the given notifications arrive. *)
Definition healthy (ns : list arrival) : link :=
  {| radio := λ _, Connects; start_notify := Ok ();
     write_gatt_char := λ _ _, Ok ();
     notifications := ns; settle := 0; disconnect := Ok () |}.

(** ** HTTP adapter *)

(** A request as the handler sees it: its attributes, and what
    [await request.read()] returns or raises. *)
Record request := {
  method : string;
  url : string;
  req_headers : list (string * string);
  read : result bytes;
}.

(** [body], once the read has returned it. *)
Definition req_body (req : request) : bytes :=
  match read req with
  | Ok body => body
  | Raise _ => []
  end.

(** The module globals. *)
Record proxy := {
  connected_address : option string;
  CMD_CHAR : option string;
  RESP_CHAR : option string;
}.

Definition initial_proxy : proxy :=
  {| connected_address := None; CMD_CHAR := None; RESP_CHAR := None |}.

(** What surrounds one call of [handle_request]: the clock, the outcome of
    the device scan and of the characteristic detection (both run only while
    no address is known), and the link. *)
Record world := {
  clock_ms : Z;
  select_device : result (option string);
  detect_characteristics : result (option string * option string);
  the_link : link;
}.

(** The same surroundings with another link. *)
Definition with_link (w : world) (lk : link) : world :=
  {| clock_ms := clock_ms w; select_device := select_device w;
     detect_characteristics := detect_characteristics w; the_link := lk |}.

Section adapter.
Context `{Runtime}.

(** The command envelope built from the request. *)
Definition envelope (now : Z) (req : request) : json :=
  JDict ([("id", JStr ("req-" +:+ pretty now));
          ("method", JStr (method req));
          ("url", JStr (url req));
          ("headers",
           JDict (prod_map id JStr <$> dict_of_headers (req_headers req)))]
         ++ match req_body req with
            | [] => []
            | _ => [("body_b64", JStr (b64encode (req_body req)))]
            end).

(** [if not connected_address: ...]: [None] and the empty string are
    false.  The address is assigned before the detection runs, so it stays
    assigned when the detection raises. *)
Definition resolve_device (st : proxy) (w : world) : proxy * result () :=
  match connected_address st with
  | Some (String _ _) => (st, Ok ())
  | _ =>
      match select_device w with
      | Raise e => (st, Raise e)
      | Ok addr =>
          let st := {| connected_address := addr; CMD_CHAR := CMD_CHAR st;
                       RESP_CHAR := RESP_CHAR st |} in
          match detect_characteristics w with
          | Raise e => (st, Raise e)
          | Ok (c, r) =>
              ({| connected_address := addr; CMD_CHAR := c; RESP_CHAR := r |},
               Ok ())
          end
      end
  end.

(** The second [try] of [handle_request]: the response envelope read from
    the assembled bytes. *)
Definition decode_response (resp_bytes : bytes) : result response :=
  let! decoded := utf8_decode resp_bytes in
  let! msg := json_loads decoded in
  let! status_v := get msg "status" (JInt 200) in
  let! status := int status_v in
  let! headers := get msg "headers" (JDict []) in
  let! body_b64 := get msg "body_b64" (JStr "") in
  let! body :=
    (if truthy body_b64 then b64decode_value body_b64 else Ok []) in
  web_Response body status headers.

(** The two [try] blocks of [handle_request], given how the call of
    [send_command_and_get_response] ended. *)
Definition answer (outcome : result bytes) : response :=
  match outcome with
  | Raise e =>
      {| status := 504; headers := [];
         body := Text ("Error communicating with device: " +:+ describe e) |}
  | Ok resp_bytes =>
      match decode_response resp_bytes with
      | Ok r => r
      | Raise _ => {| status := 200; headers := []; body := Body resp_bytes |}
      end
  end.

(** What [handle_request] answers once the device is resolved. *)
Definition respond (ed : edition) (lk : link) (cmd_bytes : bytes) : response :=
  answer (send_command_and_get_response ed lk cmd_bytes REQUEST_TIMEOUT).

(** [json.dumps(cmd).encode("utf-8")] *)
Definition command_bytes_of (now : Z) (req : request) : bytes :=
  utf8_encode (json_dumps (envelope now req)).

(** [handle_request(request)]: the globals afterwards, and the response
    or the exception that leaves the handler.  The read of the body and the
    resolution of the device are outside both [try] blocks. *)
Definition handle_request (ed : edition) (st : proxy) (w : world)
    (req : request) : proxy * result response :=
  match read req with
  | Raise e => (st, Raise e)
  | Ok body =>
      let cmd_bytes := command_bytes_of (clock_ms w) req in
      match resolve_device st w with
      | (st, Raise e) => (st, Raise e)
      | (st, Ok _) => (st, Ok (respond ed (the_link w) cmd_bytes))
      end
  end.
End adapter.

(** ** The server

    [main] registers [handle_request] for every method and path, and the
    event loop runs one call of it per request; calls are suspended at their
    [await]s and resumed in any order.  A call is in flight from the moment
    it enters [send_command_and_get_response], where its [fragments] and
    [finished] are created, until it has answered; the calls are numbered as
    they enter.  A handler that raises before that has no call. *)

Record call := {
  call_command : bytes;
  call_cycle : cycle;
}.

Record server := {
  calls : gmap nat call;
  next_call : nat;
  answers : gmap nat response;
}.

Definition idle : server := {| calls := ∅; next_call := 0; answers := ∅ |}.

Inductive event :=
  (** a request arrives and its call enters the cycle *)
  | Arrives (now : Z) (req : request)
  (** the stack delivers a notification to the handler of call [k] *)
  | Notifies (k : nat) (data : bytes)
  (** the wait of call [k] ends and the call assembles and answers *)
  | Returns (k : nat)
  (** the deadline of call [k] passes *)
  | TimesOut (k : nat)
  (** the connection of call [k] raises *)
  | Breaks (k : nat) (e : exn)
  (** a request arrives and its handler raises before the cycle, in
      [request.read], [select_device] or [detect_characteristics]: no call
      enters the cycle *)
  | Aborts (e : exn)
  (** the stack delivers a notification to the handler of call [k] after
      the call has ended: the handler writes to the [fragments] of the ended
      call, which nothing reads any more *)
  | Lingers (k : nat) (data : bytes).

Section server.
Context `{Runtime}.

Definition settle_call (s : server) (k : nat) (r : response) : server :=
  {| calls := delete k (calls s); next_call := next_call s;
     answers := <[k := r]> (answers s) |}.

(** One step of the loop; [None] when the event cannot happen in [s]. *)
Definition step (s : server) (ev : event) : option server :=
  match ev with
  | Arrives now req =>
      Some {| calls := <[next_call s :=
                          {| call_command := command_bytes_of now req;
                             call_cycle := new_cycle |}]> (calls s);
              next_call := S (next_call s);
              answers := answers s |}
  | Notifies k data =>
      cl ← calls s !! k;
      Some {| calls := <[k := {| call_command := call_command cl;
                                 call_cycle := notif_handler (call_cycle cl) data |}]>
                         (calls s);
              next_call := next_call s;
              answers := answers s |}
  | Returns k =>
      cl ← calls s !! k;
      if finished (call_cycle cl) then
        Some (settle_call s k
                (answer (let! rid := command_id (call_command cl) in
                         assemble (fragments (call_cycle cl)) rid)))
      else None
  | TimesOut k =>
      cl ← calls s !! k;
      if finished (call_cycle cl) then None
      else Some (settle_call s k
                   (answer (Raise timed_out)))
  | Breaks k e =>
      cl ← calls s !! k;
      Some (settle_call s k (answer (Raise e)))
  | Aborts e => Some s
  | Lingers k data =>
      r ← answers s !! k;
      Some s
  end.

(** A run of the loop. *)
Definition exec (s : server) (evs : list event) : option server :=
  foldl (λ os ev, os ≫= λ s, step s ev) (Some s) evs.

(** A run in which a request arrives only while no call is in flight. *)
Definition one_at_a_time (s : server) (evs : list event) : option server :=
  foldl (λ os ev, os ≫= λ s,
           match ev with
           | Arrives _ _ =>
               if decide (calls s = ∅) then step s ev else None
           | _ => step s ev
           end) (Some s) evs.

(** The notifications a run delivers to call [k]. *)
Definition delivered_to (k : nat) (evs : list event) : list bytes :=
  evs ≫= λ ev,
    match ev with
    | Notifies k' data => if decide (k' = k) then [data] else []
    | _ => []
    end.

(** An event that ends a call: it tells nothing to any call and brings no
    request. *)
Definition quiet (ev : event) : Prop :=
  match ev with
  | Returns _ | TimesOut _ | Breaks _ _ => True
  | _ => False
  end.

(** The requests a run has seen arrive, in order: call [k] serves the
    [k]-th of them. *)
Definition arrivals (evs : list event) : list (Z * request) :=
  evs ≫= λ ev,
    match ev with
    | Arrives now req => [(now, req)]
    | _ => []
    end.

(** What a run keeps true.  Calls are numbered in the order of arrival; a
    call in flight holds the envelope of its own request and exactly what
    its own notifications made of an empty cycle; an answered call is gone,
    and its answer was assembled for its own request from its own
    notifications, or reports an exception; no notification reaches a call
    that has not arrived. *)
Record consistent (evs : list event) (s : server) : Prop := {
  counted : next_call s = length (arrivals evs);
  in_flight k cl :
    calls s !! k = Some cl →
    (∃ now req,
        arrivals evs !! k = Some (now, req) ∧
        call_command cl = command_bytes_of now req) ∧
    call_cycle cl = foldl notif_handler new_cycle (delivered_to k evs);
  answered k r :
    answers s !! k = Some r →
    calls s !! k = None ∧
    ∃ now req,
      arrivals evs !! k = Some (now, req) ∧
      (r = answer (let! rid := command_id (command_bytes_of now req) in
                   assemble
                     (fragments (foldl notif_handler new_cycle
                                   (delivered_to k evs))) rid) ∨
       (∃ e, r = answer (Raise e)));
  not_arrived k :
    (length (arrivals evs) ≤ k)%nat → delivered_to k evs = [];
}.

End server.

(** ** Detection of the characteristics

    The detection of the two characteristics in each of the editions. *)

(** [detect_characteristics] of [main.py]. *)
Module MainEdition.

(** The uuids of the characteristics that offer [write] or [notify]. *)
Definition possible_chars (services : list service) : list string :=
  all_chars services ≫= λ char,
    if has "write" (properties char) || has "notify" (properties char)
    then [uuid char] else [].

(** [next((c.properties for s in services for c in s.characteristics
    if c.uuid == char), [])] *)
Definition props_of (services : list service) (char : string) : list string :=
  default [] (properties <$> head (filter (λ c, uuid c = char) (all_chars services))).

(** One round of the loop over [possible_chars]: [cmd_char] and
    [resp_char] are set while they are [None]. *)
Definition keep_first (services : list service)
    (found : option string * option string) (char : string)
    : option string * option string :=
  let props := props_of services char in
  (match found.1 with
   | None => if has "write" props then Some char else None
   | cmd_char => cmd_char
   end,
   match found.2 with
   | None => if has "notify" props then Some char else None
   | resp_char => resp_char
   end).

Definition pick (services : list service) (possible : list string)
    : option string * option string :=
  foldl (keep_first services) (None, None) possible.

Definition detect_characteristics (attempts : nat → attempt)
    (services : list service) (disconnect : result ())
    : result (option string * option string) :=
  let! client := (Device.safe_connect attempts 3).2 in
  match services with
  | [] => Raise RuntimeError
  | _ =>
      match possible_chars services with
      | [] => Raise RuntimeError
      | (first :: _) as possible =>
          let '(cmd_char, resp_char) := pick services possible in
          let cmd_char := if unset cmd_char then Some first else cmd_char in
          let resp_char := if unset resp_char then cmd_char else resp_char in
          let! _ := disconnect in
          Ok (cmd_char, resp_char)
      end
  end.

End MainEdition.

(** [detect_characteristics] of [macedition.py]. *)
Module MacEdition.

(** What the detection does on the link besides reading the services. *)
Inductive gatt_op :=
  | Read (char : string)
  | Write (char : string) (b : bytes)
  | StartNotify (char : string)
  | StopNotify (char : string).

(** What the client does during the detection: how the [async with] block
    is entered (the client connected or not, or an exception) and left, and
    how the [start_notify] of the notify test ends.  What the read test,
    the write test and [stop_notify] raise is printed and dropped, and
    nothing depends on it. *)
Record probe := {
  enter : result bool;
  start_test : result ();
  leave : result ();
}.

(** The characteristics that offer [read], [write] or [notify]. *)
Definition possible_chars (services : list service) : list characteristic :=
  filter (λ char, has "read" (properties char) || has "write" (properties char)
                  || has "notify" (properties char) = true)
         (all_chars services).

(** The operations of the three tests, in order. *)
Definition tests (pr : probe) (cmd_char resp_char : option string) : list gatt_op :=
  (match cmd_char with
   | Some ((String _ _) as c) => [Read c; Write c (String.list_byte_of_string "test")]
   | _ => []
   end)
  ++ (match resp_char with
      | Some ((String _ _) as r) =>
          StartNotify r
          :: match start_test pr with
             | Ok _ => [StopNotify r]
             | Raise _ => []
             end
      | _ => []
      end).

(** The body of the [async with] block: the operations on the link and the
    outcome. *)
Definition detect_body (pr : probe) (connected : bool) (services : list service)
    : list gatt_op * result (option string * option string) :=
  if negb connected then ([], Raise BleakError)
  else
    match services with
    | [] => ([], Raise RuntimeError)
    | _ =>
        match possible_chars services with
        | [] => ([], Raise RuntimeError)
        | possible =>
            let cmd_char := first_with "write" possible in
            let resp_char := first_with "notify" possible in
            let cmd_char :=
              if unset cmd_char then first_with "read" possible else cmd_char in
            let resp_char := if unset resp_char then cmd_char else resp_char in
            (tests pr cmd_char resp_char, Ok (cmd_char, resp_char))
        end
    end.

(** An exception of the exit of the block replaces the outcome of the
    body. *)
Definition detect_characteristics (pr : probe) (services : list service)
    : list gatt_op * result (option string * option string) :=
  match enter pr with
  | Raise e => ([], Raise e)
  | Ok connected =>
      let '(ops, outcome) := detect_body pr connected services in
      match leave pr with
      | Ok _ => (ops, outcome)
      | Raise e => (ops, Raise e)
      end
  end.

End MacEdition.

(** ** A reference runtime

    An implementation of [Runtime] on which the definitions can be run: the
    library functions on ASCII text.  It reads the JSON of the wire messages
    (objects, arrays, strings with the single-character escapes, integers,
    [true], [false], [null]); numbers with a fraction or an exponent and
    [\u] escapes are outside it and are reported as undecodable. *)

Module Ref.

Definition quote : ascii := "034"%char.
Definition backslash : ascii := "092"%char.

(** *** UTF-8 *)

(** One well-formed UTF-8 sequence at the head of the input (RFC 3629), and
    the rest. *)
Definition utf8_step (s : list N) : option (list N) :=
  let cont (lo hi b : N) := ((lo <=? b) && (b <=? hi))%N in
  match s with
  | [] => None
  | b0 :: s1 =>
      if (b0 <=? 127)%N then Some s1
      else match s1 with
      | [] => None
      | b1 :: s2 =>
          if cont 194 223 b0 then (if cont 128 191 b1 then Some s2 else None)
          else match s2 with
          | [] => None
          | b2 :: s3 =>
              if cont 224 239 b0 then
                let lo := if (b0 =? 224)%N then 160 else 128 in
                let hi := if (b0 =? 237)%N then 159 else 191 in
                if cont lo hi b1 && cont 128 191 b2 then Some s3 else None
              else match s3 with
              | [] => None
              | b3 :: s4 =>
                  if cont 240 244 b0 then
                    let lo := if (b0 =? 240)%N then 144 else 128 in
                    let hi := if (b0 =? 244)%N then 143 else 191 in
                    if cont lo hi b1 && cont 128 191 b2 && cont 128 191 b3
                    then Some s4 else None
                  else None
              end
          end
      end
  end%N.

Fixpoint utf8_valid (fuel : nat) (s : list N) : bool :=
  match s, fuel with
  | [], _ => true
  | _, O => false
  | _, S fuel =>
      match utf8_step s with
      | Some rest => utf8_valid fuel rest
      | None => false
      end
  end.

Definition utf8_decode (b : bytes) : result string :=
  if utf8_valid (length b) (Byte.to_N <$> b)
  then Ok (String.string_of_list_byte b)
  else Raise UnicodeDecodeError.

Definition utf8_encode (s : string) : bytes := String.list_byte_of_string s.

(** *** Base64 *)

Definition b64_alphabet : list ascii :=
  String.list_ascii_of_string
    "ABCDEFGHIJKLMNOPQRSTUVWXYZabcdefghijklmnopqrstuvwxyz0123456789+/".

Fixpoint index_of (c : ascii) (l : list ascii) (i : N) : option N :=
  match l with
  | [] => None
  | c' :: l' => if Ascii.eqb c c' then Some i else index_of c l' (i + 1)%N
  end.

Definition b64_value (c : ascii) : option N := index_of c b64_alphabet 0.

Definition byte_of (n : N) : byte :=
  default x00 (Byte.of_N (n mod 256)%N).

(** The decoder of [binascii.a2b_base64] without strict mode: characters
    outside the alphabet are skipped, a padding that completes a quad ends
    the input, and a quad left incomplete is an error.  [quad] is the
    position in the current quad, [left] the bits carried over. *)
Fixpoint b64_scan (s : list ascii) (quad : N) (left : N) (pads : N)
    (out : list byte) : result bytes :=
  match s with
  | [] => if (quad =? 0)%N then Ok (reverse out) else Raise binascii_Error
  | c :: s' =>
      if Ascii.eqb c "="%char then
        if (2 <=? quad)%N then
          if (4 <=? quad + (pads + 1))%N then Ok (reverse out)
          else b64_scan s' quad left (pads + 1)%N out
        else b64_scan s' quad left pads out
      else
        match b64_value c with
        | None => b64_scan s' quad left pads out
        | Some v =>
            if (quad =? 0)%N then b64_scan s' 1%N v 0%N out
            else if (quad =? 1)%N then
              b64_scan s' 2%N (N.land v 15) 0%N
                (byte_of (N.lor (N.shiftl left 2) (N.shiftr v 4)) :: out)
            else if (quad =? 2)%N then
              b64_scan s' 3%N (N.land v 3) 0%N
                (byte_of (N.lor (N.shiftl left 4) (N.shiftr v 2)) :: out)
            else
              b64_scan s' 0%N 0%N 0%N
                (byte_of (N.lor (N.shiftl left 6) v) :: out)
        end
  end.

(** A [str] argument must be ASCII. *)
Definition b64decode (s : string) : result bytes :=
  let cs := String.list_ascii_of_string s in
  if forallb (λ c, (N_of_ascii c <? 128)%N) cs
  then b64_scan cs 0 0 0 []
  else Raise ValueError.

Definition b64_char (n : N) : ascii :=
  default "="%char (b64_alphabet !! N.to_nat n).

Fixpoint b64_groups (b : list N) : list ascii :=
  match b with
  | [] => []
  | [x] =>
      [b64_char (N.shiftr x 2); b64_char (N.shiftl (N.land x 3) 4);
       "="%char; "="%char]
  | [x; y] =>
      [b64_char (N.shiftr x 2);
       b64_char (N.lor (N.shiftl (N.land x 3) 4) (N.shiftr y 4));
       b64_char (N.shiftl (N.land y 15) 2); "="%char]
  | x :: y :: z :: rest =>
      [b64_char (N.shiftr x 2);
       b64_char (N.lor (N.shiftl (N.land x 3) 4) (N.shiftr y 4));
       b64_char (N.lor (N.shiftl (N.land y 15) 2) (N.shiftr z 6));
       b64_char (N.land z 63)] ++ b64_groups rest
  end.

Definition b64encode (b : bytes) : string :=
  String.string_of_list_ascii (b64_groups (Byte.to_N <$> b)).

(** *** [int] of a [str] *)

Definition digit_value (c : ascii) : option Z :=
  let n := Z.of_N (N_of_ascii c) in
  if (48 <=? n) && (n <=? 57) then Some (n - 48) else None.

Definition is_space (c : ascii) : bool :=
  let n := N_of_ascii c in
  ((n =? 32) || ((9 <=? n) && (n <=? 13)))%N.

Fixpoint lstrip (s : list ascii) : list ascii :=
  match s with
  | c :: s' => if is_space c then lstrip s' else s
  | [] => []
  end.

(** Decimal digits, single underscores allowed between two digits. *)
Fixpoint digits (s : list ascii) (acc : Z) (after_digit : bool) : option Z :=
  match s with
  | [] => if after_digit then Some acc else None
  | c :: s' =>
      match digit_value c with
      | Some d => digits s' (10 * acc + d) true
      | None =>
          if Ascii.eqb c "_"%char && after_digit then digits s' acc false
          else None
      end
  end.

Definition int_of_str (s : string) : result Z :=
  let body := reverse (lstrip (reverse (lstrip (String.list_ascii_of_string s)))) in
  let parsed :=
    match body with
    | "-"%char :: ds => Z.opp <$> digits ds 0 false
    | "+"%char :: ds => digits ds 0 false
    | ds => digits ds 0 false
    end in
  match parsed with
  | Some z => Ok z
  | None => Raise ValueError
  end.

(** *** JSON *)

Definition is_ws (c : ascii) : bool :=
  let n := N_of_ascii c in
  ((n =? 32) || (n =? 9) || (n =? 10) || (n =? 13))%N.

Fixpoint skip_ws (s : list ascii) : list ascii :=
  match s with
  | c :: s' => if is_ws c then skip_ws s' else s
  | [] => []
  end.

Definition unescape (c : ascii) : option ascii :=
  if Ascii.eqb c quote then Some quote
  else if Ascii.eqb c backslash then Some backslash
  else if Ascii.eqb c "/"%char then Some "/"%char
  else if Ascii.eqb c "b"%char then Some "008"%char
  else if Ascii.eqb c "f"%char then Some "012"%char
  else if Ascii.eqb c "n"%char then Some "010"%char
  else if Ascii.eqb c "r"%char then Some "013"%char
  else if Ascii.eqb c "t"%char then Some "009"%char
  else None.

(** The text of a string after its opening quote, and what follows the
    closing quote. *)
Fixpoint string_body (s : list ascii) (acc : list ascii)
    : option (string * list ascii) :=
  match s with
  | [] => None
  | c :: s' =>
      if Ascii.eqb c quote then Some (String.string_of_list_ascii (reverse acc), s')
      else if Ascii.eqb c backslash then
        match s' with
        | e :: s'' =>
            match unescape e with
            | Some c' => string_body s'' (c' :: acc)
            | None => None
            end
        | [] => None
        end
      else if (N_of_ascii c <? 32)%N then None
      else string_body s' (c :: acc)
  end.

Fixpoint more_digits (s : list ascii) (acc : Z) : Z * list ascii :=
  match s with
  | c :: s' =>
      match digit_value c with
      | Some d => more_digits s' (10 * acc + d)
      | None => (acc, s)
      end
  | [] => (acc, [])
  end.

(** An integer literal; a fraction or an exponent is not read. *)
Definition number (s : list ascii) : option (json * list ascii) :=
  let '(negative, s1) :=
    match s with
    | "-"%char :: r => (true, r)
    | _ => (false, s)
    end in
  let finish (z : Z) (r : list ascii) :=
    match r with
    | "."%char :: _ | "e"%char :: _ | "E"%char :: _ => None
    | _ => Some (JInt (if negative : bool then - z else z), r)
    end in
  match s1 with
  | [] => None
  | "0"%char :: r => finish 0 r
  | c :: r =>
      match digit_value c with
      | Some d => let '(z, r') := more_digits r d in finish z r'
      | None => None
      end
  end.

(** A key met again keeps its place and takes the new value. *)
Fixpoint items_set (items : list (string * json)) (k : string) (v : json)
    : list (string * json) :=
  match items with
  | [] => [(k, v)]
  | (k', v') :: rest =>
      if String.eqb k' k then (k, v) :: rest else (k', v') :: items_set rest k v
  end.

Definition literal (word : string) (v : json) (s : list ascii)
    : option (json * list ascii) :=
  let w := String.list_ascii_of_string word in
  if decide (take (length w) s = w) then Some (v, drop (length w) s) else None.

Fixpoint value (fuel : nat) (s : list ascii) : option (json * list ascii) :=
  match fuel with
  | O => None
  | S fuel =>
      match s with
      | [] => None
      | c :: r =>
          if Ascii.eqb c "{"%char then
            match skip_ws r with
            | "}"%char :: r' => Some (JDict [], r')
            | r' => members fuel r' []
            end
          else if Ascii.eqb c "["%char then
            match skip_ws r with
            | "]"%char :: r' => Some (JList [], r')
            | r' => elements fuel r' []
            end
          else if Ascii.eqb c quote then
            '(text, r') ← string_body r []; Some (JStr text, r')
          else if Ascii.eqb c "t"%char then literal "true" (JBool true) s
          else if Ascii.eqb c "f"%char then literal "false" (JBool false) s
          else if Ascii.eqb c "n"%char then literal "null" JNull s
          else number s
      end
  end
with members (fuel : nat) (s : list ascii) (acc : list (string * json))
    : option (json * list ascii) :=
  match fuel with
  | O => None
  | S fuel =>
      match s with
      | c :: r =>
          if Ascii.eqb c quote then
            '(k, r1) ← string_body r [];
            match skip_ws r1 with
            | ":"%char :: r2 =>
                '(v, r3) ← value fuel (skip_ws r2);
                match skip_ws r3 with
                | ","%char :: r4 => members fuel (skip_ws r4) (items_set acc k v)
                | "}"%char :: r4 => Some (JDict (items_set acc k v), r4)
                | _ => None
                end
            | _ => None
            end
          else None
      | [] => None
      end
  end
with elements (fuel : nat) (s : list ascii) (acc : list json)
    : option (json * list ascii) :=
  match fuel with
  | O => None
  | S fuel =>
      '(v, r1) ← value fuel s;
      match skip_ws r1 with
      | ","%char :: r2 => elements fuel (skip_ws r2) (v :: acc)
      | "]"%char :: r2 => Some (JList (reverse (v :: acc)), r2)
      | _ => None
      end
  end.

Definition json_loads (s : string) : result json :=
  let cs := String.list_ascii_of_string s in
  match value (S (length cs)) (skip_ws cs) with
  | Some (v, rest) =>
      match skip_ws rest with
      | [] => Ok v
      | _ => Raise JSONDecodeError
      end
  | None => Raise JSONDecodeError
  end.

Definition hex_digit (n : N) : ascii :=
  default "0"%char (String.list_ascii_of_string "0123456789abcdef" !! N.to_nat n).

Definition escape (c : ascii) : list ascii :=
  let n := N_of_ascii c in
  if Ascii.eqb c quote then [backslash; quote]
  else if Ascii.eqb c backslash then [backslash; backslash]
  else if (n =? 10)%N then [backslash; "n"%char]
  else if (n =? 13)%N then [backslash; "r"%char]
  else if (n =? 9)%N then [backslash; "t"%char]
  else if (n =? 8)%N then [backslash; "b"%char]
  else if (n =? 12)%N then [backslash; "f"%char]
  else if (n <? 32)%N then
    [backslash; "u"%char; "0"%char; "0"%char;
     hex_digit (N.shiftr n 4); hex_digit (N.land n 15)]
  else [c].

Definition quoted (s : string) : string :=
  String.string_of_list_ascii
    (quote :: (String.list_ascii_of_string s ≫= escape) ++ [quote]).

(** The text [json.dumps] writes with its default separators.  Text outside
    ASCII is written as it is, and a fractional number as a quotient: the
    envelope the proxy writes holds neither. *)
Fixpoint json_dumps (v : json) : string :=
  match v with
  | JNull => "null"
  | JBool b => if b then "true" else "false"
  | JInt z => pretty z
  | JFloat (Finite q) => pretty (Qnum q) +:+ "/" +:+ pretty (Z.pos (Qden q))
  | JFloat (Inf negative) => if negative then "-Infinity" else "Infinity"
  | JFloat NaN => "NaN"
  | JStr s => quoted s
  | JList l => "[" +:+ String.concat ", " (json_dumps <$> l) +:+ "]"
  | JDict items =>
      "{" +:+ String.concat ", "
                ((λ kv, quoted kv.1 +:+ ": " +:+ json_dumps kv.2) <$> items)
          +:+ "}"
  end.

(** *** The rest *)

(** The headers of a response are accepted when they are a [dict] of
    strings. *)
Definition response_headers (v : json) : result (list (string * string)) :=
  match v with
  | JDict items =>
      collect (λ kv, match kv.2 with
                     | JStr s => Ok (kv.1, s)
                     | _ => Raise TypeError
                     end) items
  | _ => Raise TypeError
  end.

(** Each name is kept once, where it comes first and with its first
    value. *)
Fixpoint dict_of_headers (hs : list (string * string)) : list (string * string) :=
  match hs with
  | [] => []
  | kv :: rest =>
      kv :: filter (λ kv', negb (String.eqb kv'.1 kv.1) = true) (dict_of_headers rest)
  end.

(** The class name stands for the text of a library exception. *)
Definition str_of_exn (e : exn) : string :=
  match e with
  | UnicodeDecodeError => "UnicodeDecodeError"
  | JSONDecodeError => "JSONDecodeError"
  | AttributeError => "AttributeError"
  | TypeError => "TypeError"
  | ValueError => "ValueError"
  | OverflowError => "OverflowError"
  | KeyError => "KeyError"
  | binascii_Error => "binascii.Error"
  | TimeoutError m => m
  | BleakError => "BleakError"
  | RuntimeError => "RuntimeError"
  | ConnectionResetError => "ConnectionResetError"
  end.

Definition runtime : Runtime := {|
  Py.utf8_decode := utf8_decode;
  Py.utf8_encode := utf8_encode;
  Py.json_loads := json_loads;
  Py.json_dumps := json_dumps;
  Py.b64decode := b64decode;
  Py.b64encode := b64encode;
  Py.int_of_str := int_of_str;
  Py.str_of_exn := str_of_exn;
  Py.dict_of_headers := dict_of_headers;
  Py.response_headers := response_headers;
|}.

(** The bytes of a text in which every apostrophe stands for a double
    quote. *)
Definition wire (s : string) : bytes :=
  byte_of_ascii
    <$> ((λ c, if Ascii.eqb c "'"%char then quote else c)
           <$> String.list_ascii_of_string s).

End Ref.

(** ** Sample data

    Concrete notifications, requests and runs, on the reference runtime. *)

Module Sample.

#[local] Existing Instance Ref.runtime.

(** A response [ABC] sent as three fragments of the id [X]. *)
Definition piece0 : bytes :=
  Ref.wire "{'id':'X','seq':0,'payload_b64':'QQ==','final':false}".
Definition piece1 : bytes :=
  Ref.wire "{'id':'X','seq':1,'payload_b64':'Qg==','final':false}".
Definition piece2 : bytes :=
  Ref.wire "{'id':'X','seq':2,'payload_b64':'Qw==','final':true}".

(** A second payload for the slot of [piece1]. *)
Definition piece1_again : bytes :=
  Ref.wire "{'id':'X','seq':1,'payload_b64':'Wg=='}".

(** A fragment of another id, and a message with no field but [final]. *)
Definition stray : bytes :=
  Ref.wire "{'id':'Y','seq':1,'payload_b64':'Pw=='}".
Definition bare_final : bytes := Ref.wire "{'final': true}".

(** Bytes that are not UTF-8. *)
Definition garbage : bytes := [xff; xfe].

Definition command_X : bytes := Ref.wire "{'id':'X','method':'GET'}".

Definition at_second (t : Z) (d : bytes) : arrival :=
  {| at_time := inject_Z t; data := d |}.

Definition get_request : request :=
  {| method := "GET"; url := "http://127.0.0.1:8080/status";
     req_headers := [("Host", "127.0.0.1:8080")]; read := Ok [] |}.

(** The globals once a device has been chosen. *)
Definition resolved : proxy :=
  {| connected_address := Some "AA:BB:CC:DD:EE:FF";
     CMD_CHAR := Some "0000ffe1"; RESP_CHAR := Some "0000ffe2" |}.

(** At clock 5 the request id is [req-5]; the peripheral answers with one
    final fragment whose payload is the text [hi], which is no JSON. *)
Definition plain_text_world : world :=
  {| clock_ms := 5; select_device := Ok None;
     detect_characteristics := Raise BleakError;
     the_link :=
       healthy [at_second 1
                  (Ref.wire "{'id':'req-5','seq':0,'payload_b64':'aGk=','final':true}")] |}.

(** The peripheral sends one fragment and never a final one. *)
Definition silent_link : link := healthy [at_second 1 piece0].


(** The whole response [ABC] of [X], delivered in the order of the
    specification, and with the final fragment first. *)
Definition final_last : link :=
  healthy [at_second 1 piece1; at_second 2 piece0; at_second 3 piece2].
Definition final_first : link :=
  healthy [at_second 1 piece2; at_second 2 piece0; at_second 3 piece1].

(** A request whose client goes away while the body is read. *)
Definition cut_request : request :=
  {| method := "POST"; url := "http://127.0.0.1:8080/upload";
     req_headers := [("Host", "127.0.0.1:8080")];
     read := Raise ConnectionResetError |}.

Definition run_pending : list event :=
  [Arrives 5 get_request; Notifies 0 piece0].

Definition run_serial : list event :=
  [Arrives 5 get_request; TimesOut 0; Arrives 6 get_request].

Definition run_overlapping : list event :=
  [Arrives 5 get_request; Arrives 6 get_request].

End Sample.

(** ** Sample devices

    A scan, a service table and connection attempts, used to run the device
    selection and the detection. *)

Module Bench.
Import Sample.

#[local] Existing Instance Ref.runtime.

Definition scanned : list device :=
  [ {| dev_name := Some "Proxy"; dev_address := "AA:BB:CC:DD:EE:FF" |};
    {| dev_name := None; dev_address := "11:22:33:44:55:66" |} ].

(** One service with a readable and writable characteristic, a notifying
    one and one that offers neither. *)
Definition uart : list service :=
  [ {| svc_uuid := "0000ffe0";
       characteristics :=
         [ {| uuid := "0000ffe3"; properties := ["indicate"] |};
           {| uuid := "0000ffe1"; properties := ["read"; "write"] |};
           {| uuid := "0000ffe2"; properties := ["notify"] |} ] |} ].

(** The first attempt raises, the second stays disconnected, the third
    connects. *)
Definition third_time (k : nat) : attempt :=
  match k with
  | O => Fails BleakError
  | 1%nat => Stays_disconnected
  | _ => Connects
  end.

Definition smooth : MacEdition.probe :=
  {| MacEdition.enter := Ok true; MacEdition.start_test := Ok ();
     MacEdition.leave := Ok () |}.

(** A link whose first write raises, although the peripheral notifies a
    final fragment. *)
Definition deaf_link : link :=
  {| radio := λ _, Connects; start_notify := Ok ();
     write_gatt_char := λ k _, match k with O => Raise BleakError | _ => Ok () end;
     notifications := [at_second 1 piece2]; settle := 0; disconnect := Ok () |}.


(** A device is chosen and the detection fails. *)
Definition undetected_world : world :=
  {| clock_ms := 5; select_device := Ok (Some "AA:BB:CC:DD:EE:FF");
     detect_characteristics := Raise RuntimeError; the_link := silent_link |}.

End Bench.

(** ** Fragmenter: properties *)

Section chunking.
Context {A : Type}.
Implicit Types (l : list A) (n : Z).

Lemma slice_within l i j :
  0 ≤ i → i ≤ j →
  slice l i j = take (Z.to_nat j - Z.to_nat i)%nat (drop (Z.to_nat i) l).
Proof.
  intros Hi Hj. unfold slice, slice_bound.
  destruct (Z.ltb_spec i 0), (Z.ltb_spec j 0); try lia.
  set (len := Z.of_nat (length l)).
  destruct (Z.le_gt_cases len i) as [Hlen|Hlen].
  - rewrite (Z.min_r i len), (drop_ge l (Z.to_nat i)) by lia.
    rewrite (drop_ge l) by lia. by rewrite !take_nil.
  - rewrite (Z.min_l i len) by lia.
    destruct (Z.le_gt_cases len j) as [Hj'|Hj'].
    + rewrite (Z.min_r j len) by lia.
      rewrite !take_ge; [done| |]; rewrite length_drop; lia.
    + rewrite (Z.min_l j len) by lia. f_equal. lia.
Qed.

(** The first [k] chunks of width [n] make up the first [k * n] elements. *)
Lemma chunks_prefix l n (k : nat) :
  0 < n →
  concat ((λ i, slice l i (i + n))
            <$> ((λ j : nat, 0 + Z.of_nat j * n) <$> seq 0 k))
  = take (k * Z.to_nat n) l.
Proof.
  intros Hn. induction k as [|k IH].
  - done.
  - replace (S k * Z.to_nat n)%nat with (k * Z.to_nat n + Z.to_nat n)%nat
      by (simpl; lia).
    rewrite seq_S, !fmap_app, concat_app, IH. simpl concat.
    assert (Z.to_nat (0 + Z.of_nat k * n) = (k * Z.to_nat n)%nat) as Hk
      by (rewrite Z.add_0_l, Z2Nat.inj_mul, Nat2Z.id; lia).
    rewrite app_nil_r, slice_within by lia.
    replace (Z.to_nat (0 + Z.of_nat k * n + n) - Z.to_nat (0 + Z.of_nat k * n))%nat
      with (Z.to_nat n) by lia.
    by rewrite Hk, take_take_drop.
Qed.

Lemma range_length_cover (len n : Z) :
  0 ≤ len → 0 < n →
  0 ≤ range_length 0 len n ∧
  len ≤ range_length 0 len n * n ∧
  (0 < len → (range_length 0 len n - 1) * n < len).
Proof.
  intros Hlen Hn. unfold range_length.
  destruct (Z.ltb_spec 0 n); [|lia].
  destruct (Z.ltb_spec 0 len); [|lia].
  rewrite Z.sub_0_r.
  pose proof (Z.div_mod (len - 1) n ltac:(lia)).
  pose proof (Z.mod_pos_bound (len - 1) n ltac:(lia)).
  pose proof (Z.div_pos (len - 1) n ltac:(lia) ltac:(lia)).
  nia.
Qed.
End chunking.

Lemma chunk_bytes_positive (b : bytes) (n : Z) :
  0 < n →
  chunk_bytes b n =
    Ok ((λ i, slice b i (i + n))
          <$> ((λ j : nat, 0 + Z.of_nat j * n)
                 <$> seq 0 (Z.to_nat (range_length 0 (Z.of_nat (length b)) n)))).
Proof.
  intros Hn. unfold chunk_bytes, range.
  destruct (Z.eqb_spec n 0); [lia|done].
Qed.

(** C2: for every buffer [b] and chunk size [n > 0], the chunks concatenate
    back to [b], every chunk but possibly the last has length exactly [n],
    and an 8-byte buffer cut with [n = 4] gives exactly two chunks of four
    bytes. *)
Theorem C2_chunk_bytes_partition (b : bytes) (n : Z) :
  0 < n →
  ∃ chunks,
    chunk_bytes b n = Ok chunks ∧
    concat chunks = b ∧
    (∀ (k : nat) c,
        chunks !! k = Some c → (S k < length chunks)%nat →
        Z.of_nat (length c) = n) ∧
    (length b = 8%nat → n = 4 →
     ∃ c1 c2, chunks = [c1; c2] ∧ length c1 = 4%nat ∧ length c2 = 4%nat).
Proof.
  intros Hn. eexists. split; [by apply chunk_bytes_positive|].
  pose proof (range_length_cover (Z.of_nat (length b)) n ltac:(lia) Hn)
    as (Hc0 & Hcov & Hlast).
  set (cnt := range_length 0 (Z.of_nat (length b)) n) in *.
  split; [|split].
  - rewrite chunks_prefix by done. apply take_ge. nia.
  - intros k c Hk Hlt. rewrite !length_fmap, length_seq in Hlt.
    rewrite !list_lookup_fmap in Hk.
    rewrite lookup_seq_lt in Hk by lia. simpl in Hk.
    injection Hk as <-.
    assert (0 < Z.of_nat (length b)) as Hpos.
    { destruct b; [|simpl; lia]. subst cnt. unfold range_length in Hlt.
      destruct (0 <? n); simpl in Hlt; lia. }
    specialize (Hlast Hpos).
    rewrite slice_within by lia.
    rewrite length_take, length_drop. nia.
  - intros Hlen ->. subst cnt. rewrite Hlen.
    do 9 (destruct b as [|? b]; try discriminate Hlen).
    by eexists _, _.
Qed.

(** C2 at an 8-byte body and chunk size 4. *)
Lemma C2_chunk_bytes_partition_witness :
  0 < 4 ∧
  ∃ chunks,
    chunk_bytes (Ref.utf8_encode "{a:true}") 4 = Ok chunks ∧
    concat chunks = Ref.utf8_encode "{a:true}" ∧
    ∃ c1 c2, chunks = [c1; c2] ∧ length c1 = 4%nat ∧ length c2 = 4%nat.
Proof.
  split; [lia|].
  destruct (C2_chunk_bytes_partition (Ref.utf8_encode "{a:true}") 4)
    as (chunks & H1 & H2 & _ & H4); [lia|].
  exists chunks. split; [done|]. split; [done|]. by apply H4.
Defined.

(** ** Reassembler: properties *)

Section reassembler_facts.
Context `{Runtime}.
Implicit Types (frs : gmap key (gmap Z bytes)) (parts : gmap Z bytes).
Implicit Types (f : fragment) (c : cycle) (rid : key).

Lemma parts_of_store_eq f frs :
  parts_of (store f frs) (frag_id f)
  = <[frag_seq f := frag_payload f]> (parts_of frs (frag_id f)).
Proof. unfold store, parts_of at 1. by rewrite lookup_insert_eq. Qed.

Lemma parts_of_store_ne f frs rid :
  rid ≠ frag_id f → parts_of (store f frs) rid = parts_of frs rid.
Proof. intros Hne. unfold store, parts_of at 1 3. by rewrite lookup_insert_ne. Qed.

Lemma notif_handler_ok c d f :
  decode_fragment d = Ok f → notif_handler c d = ingest f c.
Proof. intros Hd. unfold notif_handler. by rewrite Hd. Qed.

Lemma notif_handler_dropped c d e :
  decode_fragment d = Raise e → notif_handler c d = c.
Proof. intros Hd. unfold notif_handler. by rewrite Hd. Qed.

(** Handling a run of well-formed notifications is ingesting their
    fragments one after the other. *)
Lemma notif_handler_run c ds fs :
  Forall2 (λ d f, decode_fragment d = Ok f) ds fs →
  foldl notif_handler c ds = foldl (λ c f, ingest f c) c fs.
Proof.
  intros Hds. revert c. induction Hds as [|d f ds fs Hd _ IH]; intros c.
  - done.
  - simpl. by rewrite (notif_handler_ok _ _ _ Hd), IH.
Qed.

(** Fragments of one id fill the parts of that id by successive inserts. *)
Lemma parts_of_ingest_run rid c fs :
  Forall (λ f, frag_id f = rid) fs →
  parts_of (fragments (foldl (λ c f, ingest f c) c fs)) rid
  = foldl (λ parts f, <[frag_seq f := frag_payload f]> parts)
          (parts_of (fragments c) rid) fs.
Proof.
  intros Hfs. revert c. induction Hfs as [|f fs Hf _ IH]; intros c.
  - done.
  - cbn [foldl]. rewrite IH. unfold ingest at 1. cbn [fragments].
    by rewrite <- Hf, parts_of_store_eq.
Qed.

Lemma inserts_list_to_map (fs : list fragment) (acc : list (Z * bytes)) :
  foldl (λ parts f, <[frag_seq f := frag_payload f]> parts)
        (list_to_map acc) fs
  = list_to_map (reverse ((λ f, (frag_seq f, frag_payload f)) <$> fs) ++ acc).
Proof.
  revert acc. induction fs as [|f fs IH]; intros acc.
  - done.
  - simpl. rewrite reverse_cons, <- app_assoc. simpl.
    by rewrite <- IH.
Qed.

(** The sorted keys are the keys of the map, each once, in ascending
    order. *)
Lemma sorted_keys_perm parts : sorted_keys parts ≡ₚ (map_to_list parts).*1.
Proof. apply merge_sort_Permutation. Qed.

Lemma sorted_keys_sorted parts : Sorted Z.le (sorted_keys parts).
Proof.
  apply (Sorted_merge_sort Z.le).
Qed.

Lemma elem_of_sorted_keys parts i :
  i ∈ sorted_keys parts ↔ is_Some (parts !! i).
Proof.
  rewrite sorted_keys_perm, list_elem_of_fmap. split.
  - intros ([i' p] & -> & Hin). apply elem_of_map_to_list in Hin. eauto.
  - intros [p Hp]. exists (i, p). split; [done|]. by apply elem_of_map_to_list.
Qed.

Lemma sorted_keys_NoDup parts : NoDup (sorted_keys parts).
Proof. rewrite sorted_keys_perm. apply NoDup_fst_map_to_list. Qed.

Lemma collect_part parts (keys : list Z) :
  Forall (λ i, is_Some (parts !! i)) keys →
  collect (part parts) keys = Ok ((λ i, default ([] : bytes) (parts !! i)) <$> keys).
Proof.
  induction 1 as [|i keys [p Hp] _ IH]; [done|].
  cbn [collect fmap list_fmap]. rewrite IH. unfold part. by rewrite Hp.
Qed.

(** The join never raises: every sorted key is a key of [parts]. *)
Lemma assemble_sorted frs rid :
  assemble frs rid
  = Ok (concat ((λ i, default ([] : bytes) (parts_of frs rid !! i))
                  <$> sorted_keys (parts_of frs rid))).
Proof.
  unfold assemble. rewrite collect_part; [done|].
  apply Forall_forall. intros i. apply elem_of_sorted_keys.
Qed.

(** Only the parts filed under [rid] matter to the assembly. *)
Lemma assemble_parts frs1 frs2 rid :
  parts_of frs1 rid = parts_of frs2 rid → assemble frs1 rid = assemble frs2 rid.
Proof. intros Heq. by rewrite !assemble_sorted, Heq. Qed.
End reassembler_facts.

Section gap_free.
Context `{Runtime}.
Implicit Types (pieces : list bytes).

Lemma numbered_keys pieces :
  (numbered pieces).*1 = Z.of_nat <$> seq 0 (length pieces).
Proof.
  unfold numbered. rewrite fmap_imap.
  by rewrite <- (imap_seq_0 pieces Z.of_nat).
Qed.

Lemma numbered_NoDup pieces : NoDup (numbered pieces).*1.
Proof.
  rewrite numbered_keys. apply NoDup_fmap; [apply _|apply NoDup_seq].
Qed.

Lemma positions_sorted (n : nat) : Sorted Z.le (Z.of_nat <$> seq 0 n).
Proof.
  apply (Sorted_fmap _ le); [intros; lia|].
  generalize 0%nat. induction n as [|n IH]; intros a; simpl.
  - constructor.
  - constructor; [apply IH|]. destruct n; simpl; constructor. lia.
Qed.

Lemma numbered_lookup pieces (i : nat) :
  (list_to_map (numbered pieces) : gmap Z bytes) !! Z.of_nat i = pieces !! i.
Proof.
  destruct (pieces !! i) as [p|] eqn:Hp.
  - apply elem_of_list_to_map; [apply numbered_NoDup|].
    by apply (elem_of_lookup_imap_2 (λ i p, (Z.of_nat i, p))).
  - apply not_elem_of_list_to_map. rewrite numbered_keys.
    intros (j & Hj & Hin)%list_elem_of_fmap.
    apply elem_of_seq in Hin. apply lookup_ge_None in Hp. lia.
Qed.

(** Assembling the parts [0 ↦ p0, 1 ↦ p1, ...] gives [p0 ++ p1 ++ ...]. *)
Lemma assemble_numbered frs rid pieces :
  parts_of frs rid = list_to_map (numbered pieces) →
  assemble frs rid = Ok (concat pieces).
Proof.
  intros Hparts. rewrite assemble_sorted, Hparts.
  assert (sorted_keys (list_to_map (numbered pieces))
          = Z.of_nat <$> seq 0 (length pieces)) as ->.
  { apply (Sorted_unique Z.le);
      [apply sorted_keys_sorted|apply positions_sorted|].
    rewrite sorted_keys_perm, <- numbered_keys.
    apply fmap_Permutation, map_to_list_to_map, numbered_NoDup. }
  do 2 f_equal. apply list_eq. intros i.
  rewrite !list_lookup_fmap.
  destruct (decide (i < length pieces)%nat) as [Hi|Hi].
  - rewrite lookup_seq_lt by done. simpl. rewrite numbered_lookup.
    destruct (lookup_lt_is_Some_2 pieces i Hi) as [p Hp]. by rewrite Hp.
  - rewrite lookup_seq_ge by lia. symmetry. apply lookup_ge_None.
    by apply Nat.nlt_ge.
Qed.
End gap_free.

Section reassembler_claims.
Context `{Runtime}.

(** C8: a well-formed notification stores its payload at
    [fragments[id][seq]], and a second one with the same id and sequence
    number overwrites it: the slot then holds the payload handled last. *)
Theorem C8_last_write_wins (c : cycle) (d1 d2 : bytes) (f1 f2 : fragment) :
  decode_fragment d1 = Ok f1 →
  decode_fragment d2 = Ok f2 →
  frag_id f2 = frag_id f1 →
  frag_seq f2 = frag_seq f1 →
  stored (notif_handler c d1) (frag_id f1) (frag_seq f1)
    = Some (frag_payload f1) ∧
  stored (notif_handler (notif_handler c d1) d2) (frag_id f1) (frag_seq f1)
    = Some (frag_payload f2).
Proof.
  intros Hd1 Hd2 Hid Hseq.
  rewrite (notif_handler_ok _ _ _ Hd2), (notif_handler_ok _ _ _ Hd1).
  unfold stored, ingest. cbn [fragments]. split.
  - by rewrite parts_of_store_eq, lookup_insert_eq.
  - by rewrite <- Hid, <- Hseq, parts_of_store_eq, lookup_insert_eq.
Qed.

(** When the notifications handled for one id are, in any order, the
    pieces of a response numbered [0, 1, ..., n-1] without gap or
    duplicate, the assembly of that id is the concatenation of the pieces
    in ascending order; and the cycle is marked finished as soon as one of
    them is final. *)
Lemma assembly_of_numbered (rid : key) (pieces : list bytes)
    (c : cycle) (ds : list bytes) (fs : list fragment) :
  parts_of (fragments c) rid = ∅ →
  Forall2 (λ d f, decode_fragment d = Ok f) ds fs →
  (λ f, (frag_id f, (frag_seq f, frag_payload f))) <$> fs
    ≡ₚ (rid,.) <$> numbered pieces →
  assemble (fragments (foldl notif_handler c ds)) rid = Ok (concat pieces) ∧
  (Exists (λ f, frag_final f = true) fs →
   finished (foldl notif_handler c ds) = true).
Proof.
  intros Hnew Hds Hperm. rewrite (notif_handler_run _ _ _ Hds). split.
  - apply assemble_numbered.
    rewrite parts_of_ingest_run, Hnew.
    + rewrite <- (list_to_map_nil (M := gmap Z)), inserts_list_to_map, app_nil_r.
      symmetry. apply list_to_map_proper; [apply numbered_NoDup|].
      rewrite reverse_Permutation.
      apply (fmap_Permutation snd) in Hperm.
      rewrite <- !list_fmap_compose in Hperm.
      rewrite (list_fmap_ext _ id (numbered pieces)), list_fmap_id in Hperm
        by done.
      by rewrite <- Hperm.
    + apply Forall_forall. intros f Hf.
      assert ((frag_id f, (frag_seq f, frag_payload f))
                ∈ (rid,.) <$> numbered pieces) as Hin.
      { rewrite <- Hperm. apply list_elem_of_fmap. by exists f. }
      apply list_elem_of_fmap in Hin as (? & [=] & _). done.
  - clear. revert c. induction fs as [|f fs' IH]; intros c Hex.
    + by apply Exists_nil in Hex.
    + apply Exists_cons in Hex as [Hf|Hex]; [|by apply IH].
      cbn [foldl]. clear IH.
      assert (finished (ingest f c) = true) as Hfin
        by (unfold ingest; cbn; by rewrite Hf).
      revert Hfin. generalize (ingest f c). clear.
      induction fs' as [|g fs' IH]; intros c Hc; [done|].
      cbn [foldl]. apply IH. unfold ingest; cbn. rewrite Hc. apply orb_true_r.
Qed.
End reassembler_claims.

(** ** Transport session: properties *)

Section session_facts.
Context `{Runtime}.
Implicit Types (c : cycle) (lk : link) (ns : list arrival).

(** The wait handles a prefix of the deliveries. *)
Lemma await_finished_split timeout c ns c' rest :
  await_finished timeout c ns = (c', rest) →
  ∃ pre, ns = pre ++ rest ∧ c' = foldl notif_handler c (data <$> pre).
Proof.
  revert c. induction ns as [|a ns IH]; intros c Hw; simpl in Hw.
  - injection Hw as <- <-. by exists [].
  - destruct (finished c); [injection Hw as <- <-; by exists []|].
    destruct (Qle_bool (at_time a) timeout).
    + destruct (IH _ Hw) as (pre & -> & ->). by exists (a :: pre).
    + injection Hw as <- <-. by exists [].
Qed.


Lemma write_all_ok lk k chunks :
  (∀ k chunk, write_gatt_char lk k chunk = Ok ()) →
  write_all lk k chunks = Ok ().
Proof.
  intros Hw. revert k. induction chunks as [|ch chunks IH]; intros k; [done|].
  cbn [write_all]. rewrite Hw. apply IH.
Qed.

Lemma chunk_bytes_default (b : bytes) :
  ∃ chunks, chunk_bytes b BLE_CHUNK_SIZE = Ok chunks.
Proof. eexists. by apply chunk_bytes_positive. Qed.

(** Once [finished] is set, it stays set. *)
Lemma finished_kept c (ds : list bytes) :
  finished c = true → finished (foldl notif_handler c ds) = true.
Proof.
  revert c. induction ds as [|d ds IH]; intros c Hc; [done|].
  cbn [foldl]. apply IH. unfold notif_handler.
  destruct (decode_fragment d); [|done]. cbn. rewrite Hc. apply orb_true_r.
Qed.

Lemma unfinished_before c (ds : list bytes) d :
  finished (foldl notif_handler c (d :: ds)) = false → finished c = false.
Proof.
  intros Hf. destruct (finished c) eqn:Hc; [|done].
  by rewrite (finished_kept c (d :: ds)) in Hf.
Qed.

Lemma await_finished_at timeout c pre a post :
  Forall (λ x, Qle_bool (at_time x) timeout = true) (pre ++ [a]) →
  finished (foldl notif_handler c (data <$> pre)) = false →
  finished (notif_handler (foldl notif_handler c (data <$> pre)) (data a))
    = true →
  await_finished timeout c (pre ++ a :: post)
  = (notif_handler (foldl notif_handler c (data <$> pre)) (data a), post).
Proof.
  revert c. induction pre as [|x pre IH]; intros c Hin Hpre Ha.
  - cbn in *. apply Forall_inv in Hin. rewrite Hpre, Hin.
    destruct post as [|y post]; cbn; [done|]. by rewrite Ha.
  - apply Forall_cons in Hin as [Hx Hin].
    cbn [app await_finished]. rewrite fmap_cons in Hpre.
    rewrite (unfinished_before _ _ _ Hpre), Hx.
    by apply IH.
Qed.

(** A run of fragments of which none is final leaves the cycle
    unfinished. *)
Lemma ingest_run_unfinished c (fs : list fragment) :
  finished c = false →
  Forall (λ f, frag_final f = false) fs →
  finished (foldl (λ c f, ingest f c) c fs) = false.
Proof.
  intros Hc Hfs. revert c Hc.
  induction Hfs as [|f fs Hf _ IH]; intros c Hc; [done|].
  cbn [foldl]. apply IH. unfold ingest. cbn. by rewrite Hf, Hc.
Qed.


(** A call that returns has handled a prefix of the deliveries, starting
    from an empty [fragments], and returns the assembly of the id of its
    command. *)
Lemma session_returns lk cmd timeout buf :
  session lk cmd timeout = Ok buf →
  ∃ seen rid,
    seen `prefix_of` (data <$> notifications lk) ∧
    finished (foldl notif_handler new_cycle seen) = true ∧
    command_id cmd = Ok rid ∧
    assemble (fragments (foldl notif_handler new_cycle seen)) rid = Ok buf.
Proof.
  unfold session. intros Hs.
  destruct (start_notify lk); [|done]. cbn [bind] in Hs.
  destruct (chunk_bytes cmd BLE_CHUNK_SIZE) as [chunks|]; [|done].
  cbn [bind] in Hs.
  destruct (write_all lk 0 chunks); [|done]. cbn [bind] in Hs.
  destruct (Qle_bool timeout 0); [done|].
  destruct (await_finished timeout new_cycle (notifications lk))
    as [c rest] eqn:Hw.
  destruct (await_finished_split _ _ _ _ _ Hw) as (pre & Hns & ->).
  destruct (finished (foldl notif_handler new_cycle (data <$> pre)))
    eqn:Hfin; [|done].
  destruct (command_id cmd) as [rid|] eqn:Hrid; [|done]. cbn [bind] in Hs.
  rewrite <- foldl_app, <- fmap_app in Hs.
  exists (data <$> pre ++ take (settle lk) rest), rid.
  split; [|split; [|done]].
  - rewrite Hns. exists (data <$> drop (settle lk) rest).
    by rewrite <- fmap_app, <- app_assoc, take_drop.
  - rewrite fmap_app, foldl_app. revert Hfin.
    generalize (foldl notif_handler new_cycle (data <$> pre)).
    induction (data <$> take (settle lk) rest) as [|d ds IH]; intros c Hc;
      [done|].
    simpl. apply IH. unfold notif_handler.
    destruct (decode_fragment d); [|done]. cbn. rewrite Hc. apply orb_true_r.
Qed.
End session_facts.

Lemma sorted_le_NoDup_lt (l : list Z) :
  Sorted Z.le l → NoDup l → StronglySorted Z.lt l.
Proof.
  intros Hs%Sorted_StronglySorted Hnd; [|apply _].
  induction Hs as [|x l _ IH Hall]; [constructor|].
  apply NoDup_cons in Hnd as [Hx Hnd]. constructor; [by apply IH|].
  apply Forall_forall. intros y Hy.
  assert (x ≠ y) by (intros ->; done).
  rewrite Forall_forall in Hall. specialize (Hall y Hy). lia.
Qed.

Section assembly_claims.
Context `{Runtime}.

(** C1, as the code has it: the assembly never raises.  Whatever sequence
    numbers are present for the id, with or without a gap, it returns the
    payloads that are present, joined in ascending order of their sequence
    numbers. *)
Theorem C1_assemble_joins_present
    (frs : gmap key (gmap Z bytes)) (rid : key) :
  ∃ l : list (Z * bytes),
    (∀ i p, (i, p) ∈ l ↔ parts_of frs rid !! i = Some p) ∧
    StronglySorted Z.lt l.*1 ∧
    assemble frs rid = Ok (concat l.*2).
Proof.
  set (parts := parts_of frs rid).
  exists ((λ i, (i, default ([] : bytes) (parts !! i))) <$> sorted_keys parts).
  split; [|split].
  - intros i p. rewrite list_elem_of_fmap. split.
    + intros (j & [= -> ->] & [q Hq]%elem_of_sorted_keys).
      by rewrite Hq.
    + intros Hp. exists i. split; [by rewrite Hp|].
      apply elem_of_sorted_keys. eauto.
  - rewrite <- list_fmap_compose.
    rewrite (list_fmap_ext _ id (sorted_keys parts)), list_fmap_id by done.
    apply sorted_le_NoDup_lt;
      [apply sorted_keys_sorted|apply sorted_keys_NoDup].
  - rewrite <- list_fmap_compose. apply assemble_sorted.
Qed.

Lemma decode_fragment_malformed d :
  malformed d → ∃ e, decode_fragment d = Raise e.
Proof.
  unfold decode_fragment.
  intros [e Hu|s e Hu Hj|s msg Hu Hj Hobj|s items e Hu Hj Hseq
         |s items e Hu Hj Hpt Hp|s items e Hu Hj Hid];
    rewrite Hu; cbn [bind]; [eauto|rewrite Hj; cbn [bind get]..].
  - eauto.
  - destruct msg; cbn; eauto. by destruct (Hobj items).
  - rewrite Hseq. cbn. eauto.
  - destruct (int _); cbn [bind]; [|eauto].
    rewrite Hpt, Hp. cbn. eauto.
  - destruct (int _); cbn [bind]; [|eauto].
    destruct (if truthy _ then _ else _); cbn [bind]; [|eauto].
    rewrite Hid. cbn. eauto.
Qed.

Lemma malformed_decode_fragment d e :
  decode_fragment d = Raise e → malformed d.
Proof.
  unfold decode_fragment. intros Hd.
  destruct (utf8_decode d) as [s|e0] eqn:Hu; [|by eapply not_utf8].
  cbn [bind] in Hd.
  destruct (json_loads s) as [msg|e0] eqn:Hj; [|by eapply not_json].
  cbn [bind] in Hd.
  destruct msg as [| | | | | |items];
    try (eapply not_an_object; [exact Hu|exact Hj|by intros items]).
  cbn [bind get] in Hd.
  destruct (int _) as [seq|e0] eqn:Hseq; [|by eapply bad_seq].
  cbn [bind] in Hd.
  destruct (truthy (default (JStr "") (items_get items "payload_b64")))
    eqn:Hpt.
  - destruct (b64decode_value _) as [payload|e0] eqn:Hp;
      [|by eapply bad_payload].
    cbn [bind] in Hd.
    destruct (hash_key _) as [k|e0] eqn:Hk; [done|by eapply bad_id].
  - cbn [bind] in Hd.
    destruct (hash_key _) as [k|e0] eqn:Hk; [done|by eapply bad_id].
Qed.

(** C4, as the code has it: a notification that one of the steps of the
    handler rejects is dropped; the handler returns with the cycle as it
    was, so nothing is stored, nothing is marked finished and the pending
    wait goes on.  A message that merely lacks the fields is not rejected:
    it is ingested with id [None], sequence number 0, an empty payload and
    [final] false.  The rejected notifications are all that is dropped. *)
Theorem C4_malformed_is_dropped (c : cycle) (d : bytes) :
  (malformed d →
   notif_handler c d = c ∧
   fragments (notif_handler c d) = fragments c ∧
   finished (notif_handler c d) = finished c) ∧
  (malformed d ↔ ∃ e, decode_fragment d = Raise e) ∧
  (∀ s items,
     utf8_decode d = Ok s → json_loads s = Ok (JDict items) →
     items_get items "id" = None → items_get items "seq" = None →
     items_get items "payload_b64" = None → items_get items "final" = None →
     notif_handler c d = ingest default_fragment c).
Proof.
  split; [|split].
  - intros [e He]%decode_fragment_malformed.
    by rewrite (notif_handler_dropped _ _ _ He).
  - split; [apply decode_fragment_malformed|].
    intros [e He]. by eapply malformed_decode_fragment.
  - intros s items Hs Hj Hid Hseq Hp Hf.
    apply notif_handler_ok. unfold decode_fragment.
    rewrite Hs. cbn [bind]. rewrite Hj. cbn [bind get].
    by rewrite Hid, Hseq, Hp, Hf.
Qed.
End assembly_claims.

Section correlation_claims.
Context `{Runtime}.
Implicit Types (c : cycle) (lk : link) (rid : key).

(** Notifications of other ids, and dropped ones, leave the parts of
    [rid] as they are. *)
Lemma parts_of_only_carried rid c1 c2 ds :
  parts_of (fragments c1) rid = parts_of (fragments c2) rid →
  parts_of (fragments (foldl notif_handler c1 ds)) rid
  = parts_of (fragments
                (foldl notif_handler c2 (filter (λ d, carries rid d = true) ds)))
             rid.
Proof.
  revert c1 c2. induction ds as [|d ds IH]; intros c1 c2 Hc; [done|].
  cbn [foldl]. unfold carries at 1.
  destruct (decode_fragment d) as [f|e] eqn:Hd.
  - destruct (decide (frag_id f = rid)) as [Hf|Hf].
    + rewrite filter_cons_True
        by (unfold carries; rewrite Hd; by apply bool_decide_eq_true).
      cbn [foldl]. apply IH.
      rewrite !(notif_handler_ok _ _ _ Hd). unfold ingest. cbn [fragments].
      by rewrite <- Hf, !parts_of_store_eq, Hf, Hc.
    + rewrite filter_cons_False.
      2:{ unfold carries. rewrite Hd. rewrite bool_decide_eq_false_2; done. }
      apply IH. rewrite (notif_handler_ok _ _ _ Hd). unfold ingest.
      cbn [fragments]. rewrite parts_of_store_ne; [done|congruence].
  - rewrite filter_cons_False by (unfold carries; by rewrite Hd).
    apply IH. by rewrite (notif_handler_dropped _ _ _ Hd).
Qed.

Lemma assemble_nothing (frs : gmap key (gmap Z bytes)) rid :
  parts_of frs rid = ∅ → assemble frs rid = Ok [].
Proof.
  intros Hp. rewrite assemble_sorted, Hp.
  unfold sorted_keys. by rewrite map_to_list_empty.
Qed.

Lemma send_command_returns ed lk cmd timeout buf :
  send_command_and_get_response ed lk cmd timeout = Ok buf →
  session lk cmd timeout = Ok buf.
Proof.
  unfold send_command_and_get_response. destruct ed.
  - by destruct (connect lk).
  - destruct (aenter lk); [|done]. cbn [bind]. by destruct (disconnect lk).
Qed.

(** C9: the buffer a call returns is the assembly of the notifications
    that carry the id of its command, among those it has handled; the
    fragments of any other id, the id [None] of a message without id
    included, contribute nothing, and the buffer is empty when no handled
    notification carries the id. *)
Theorem C9_only_matching_id ed lk cmd timeout buf :
  send_command_and_get_response ed lk cmd timeout = Ok buf →
  ∃ rid seen,
    command_id cmd = Ok rid ∧
    seen `prefix_of` (data <$> notifications lk) ∧
    assemble
      (fragments (foldl notif_handler new_cycle
                    (filter (λ d, carries rid d = true) seen))) rid
      = Ok buf ∧
    (Forall (λ d, carries rid d = false) seen → buf = []).
Proof.
  intros Hs%send_command_returns.
  destruct (session_returns _ _ _ _ Hs) as (seen & rid & Hpre & _ & Hrid & Hb).
  exists rid, seen. split; [done|]. split; [done|].
  assert (assemble
            (fragments (foldl notif_handler new_cycle
                          (filter (λ d, carries rid d = true) seen))) rid
          = Ok buf) as Hfiltered.
  { rewrite <- Hb. symmetry. by apply assemble_parts, parts_of_only_carried. }
  split; [done|].
  intros Hnone.
  assert (filter (λ d, carries rid d = true) seen = []) as Hnil.
  { clear -Hnone. induction Hnone as [|d ds Hd _ IH]; [done|].
    rewrite filter_cons_False; [done|]. by rewrite Hd. }
  rewrite Hnil, assemble_nothing in Hfiltered by done. congruence.
Qed.

(** What a call does with the outcome of its session: [main.py] passes it
    on once it is connected, [macedition.py] lets an exception of the exit
    of its [async with] block replace it. *)
Lemma send_command_of_session ed lk cmd timeout :
  send_command_and_get_response ed lk cmd timeout
  = match ed with
    | Main =>
        let! _ := connect lk in
        session lk cmd timeout
    | Mac =>
        let! _ := aenter lk in
        match disconnect lk with
        | Ok _ => session lk cmd timeout
        | Raise e => Raise e
        end
    end.
Proof. by destruct ed. Qed.

(** C3, as the code has it: the call assembles what it has handled when
    its wait ends.  When the fragments handled up to the first final one,
    and those still handled before the call resumes, are in any order the
    pieces of the response numbered [0, 1, ..., n-1] without gap or
    duplicate, the call returns the concatenation of the pieces in ascending
    order: [main.py] once it is connected, [macedition.py] unless the exit
    of its [async with] block raises. *)
Theorem C3_assembly_order_independent ed lk cmd timeout rid pieces pre a post fs :
  Qle_bool timeout 0 = false →
  start_notify lk = Ok () →
  (∀ k chunk, write_gatt_char lk k chunk = Ok ()) →
  command_id cmd = Ok rid →
  notifications lk = pre ++ a :: post →
  Forall (λ x, Qle_bool (at_time x) timeout = true) (pre ++ [a]) →
  Forall2 (λ x f, decode_fragment (data x) = Ok f)
          (pre ++ a :: take (settle lk) post) fs →
  (λ f, (frag_id f, (frag_seq f, frag_payload f))) <$> fs
    ≡ₚ (rid,.) <$> numbered pieces →
  Forall (λ f, frag_final f = false) (take (length pre) fs) →
  (∃ f, fs !! length pre = Some f ∧ frag_final f = true) →
  session lk cmd timeout = Ok (concat pieces) ∧
  send_command_and_get_response ed lk cmd timeout
  = match ed with
    | Main =>
        let! _ := connect lk in
        Ok (concat pieces)
    | Mac =>
        let! _ := aenter lk in
        let! _ := disconnect lk in
        Ok (concat pieces)
    end.
Proof.
  intros Hpos Hn Hw Hrid Hns Hin Hfs Hperm Hpre (fa & Hfa & Hfinal).
  assert (session lk cmd timeout = Ok (concat pieces)) as Hs.
  { apply Forall2_app_inv_l in Hfs as (fpre & fs2 & Hfpre & Hfs2 & ->).
    apply Forall2_cons_inv_l in Hfs2 as (fa' & fpost & Hda & Hfpost & ->).
    pose proof (Forall2_length _ _ _ Hfpre) as Hlen.
    rewrite Hlen, take_app_length in Hpre.
    rewrite Hlen, list_lookup_middle in Hfa by done. injection Hfa as ->.
    assert (finished (foldl notif_handler new_cycle (data <$> pre)) = false)
      as Hunf.
    { rewrite (notif_handler_run _ _ fpre) by by apply Forall2_fmap_l.
      by apply ingest_run_unfinished. }
    assert (finished (notif_handler (foldl notif_handler new_cycle (data <$> pre))
                        (data a)) = true) as Hfin.
    { rewrite (notif_handler_ok _ _ _ Hda). unfold ingest. cbn.
      by rewrite Hfinal. }
    unfold session. rewrite Hn. cbn [bind].
    destruct (chunk_bytes_default cmd) as [chunks ->]. cbn [bind].
    rewrite write_all_ok by done. cbn [bind]. rewrite Hpos.
    rewrite Hns, (await_finished_at _ _ _ _ _ Hin Hunf Hfin), Hfin, Hrid.
    cbn [bind].
    replace (foldl notif_handler
               (notif_handler (foldl notif_handler new_cycle (data <$> pre))
                  (data a)) (data <$> take (settle lk) post))
      with (foldl notif_handler new_cycle
              (data <$> pre ++ a :: take (settle lk) post))
      by by rewrite fmap_app, foldl_app.
    apply (assembly_of_numbered rid pieces new_cycle _ (fpre ++ fa :: fpost)).
    - done.
    - apply Forall2_fmap_l, Forall2_app; [done|]. by constructor.
    - done. }
  split; [done|]. rewrite send_command_of_session, Hs.
  destruct ed; [done|].
  destruct (aenter lk); [|done]. cbn [bind]. by destruct (disconnect lk) as [[]|].
Qed.
End correlation_claims.

(** ** The server: properties *)

Section server_facts.
Context `{Runtime}.
Implicit Types (s : server) (evs : list event) (k : nat).

Lemma exec_snoc s evs ev :
  exec s (evs ++ [ev]) = exec s evs ≫= λ s', step s' ev.
Proof. unfold exec. by rewrite foldl_snoc. Qed.

Lemma exec_cons s evs ev :
  exec s (ev :: evs) = step s ev ≫= λ s', exec s' evs.
Proof.
  unfold exec. cbn [foldl mbind option_bind].
  destruct (step s ev) as [s'|]; [done|].
  cbn. induction evs as [|ev' evs IH]; [done|]. by cbn.
Qed.

Lemma delivered_to_snoc k evs ev :
  delivered_to k (evs ++ [ev])
  = delivered_to k evs
    ++ match ev with
       | Notifies k' d => if decide (k' = k) then [d] else []
       | _ => []
       end.
Proof.
  unfold delivered_to. rewrite bind_app. f_equal.
  cbn. by rewrite app_nil_r.
Qed.

Lemma arrivals_snoc evs ev :
  arrivals (evs ++ [ev])
  = arrivals evs
    ++ match ev with
       | Arrives t req => [(t, req)]
       | _ => []
       end.
Proof.
  unfold arrivals. rewrite bind_app. f_equal. cbn. by rewrite app_nil_r.
Qed.

Lemma consistent_idle : consistent [] idle.
Proof. split; intros; by rewrite ?lookup_empty in *. Qed.

Lemma quiet_snoc evs ev :
  quiet ev →
  arrivals (evs ++ [ev]) = arrivals evs ∧
  ∀ k, delivered_to k (evs ++ [ev]) = delivered_to k evs.
Proof.
  intros Hq. split; [|intros k];
    rewrite ?arrivals_snoc, ?delivered_to_snoc;
    destruct ev; try done; by rewrite app_nil_r.
Qed.

Lemma consistent_settle evs s k cl ev r :
  consistent evs s →
  quiet ev →
  calls s !! k = Some cl →
  (r = answer (let! rid := command_id (call_command cl) in
               assemble (fragments (call_cycle cl)) rid) ∨
   (∃ e, r = answer (Raise e))) →
  consistent (evs ++ [ev]) (settle_call s k r).
Proof.
  intros [Hn Hfl Han Hna] [Harr Hsame]%(quiet_snoc evs) Hcl Hr.
  split; unfold settle_call; cbn; rewrite ?Harr.
  - done.
  - intros k' cl' [Hne Hk']%lookup_delete_Some. rewrite Hsame. by apply Hfl.
  - intros k' r'. rewrite Hsame. destruct (decide (k' = k)) as [->|Hne].
    + rewrite lookup_insert_eq, lookup_delete_eq. intros [= <-].
      destruct (Hfl _ _ Hcl) as [(t & req & Hk & Hcmd) Hcy].
      split; [done|]. exists t, req. split; [done|].
      by rewrite <- Hcmd, <- Hcy.
    + rewrite lookup_insert_ne, lookup_delete_ne by done. apply Han.
  - intros k' Hk'. rewrite Hsame. by apply Hna.
Qed.

(** An event that leaves the server as it is. *)
Lemma consistent_unchanged evs s ev :
  consistent evs s →
  match ev with Aborts _ | Lingers _ _ => True | _ => False end →
  consistent (evs ++ [ev]) s.
Proof.
  intros [Hn Hfl Han Hna] Hev.
  assert (arrivals (evs ++ [ev]) = arrivals evs ∧
          ∀ k, delivered_to k (evs ++ [ev]) = delivered_to k evs)
    as [Harr Hsame].
  { split; [|intros k]; rewrite ?arrivals_snoc, ?delivered_to_snoc;
      destruct ev; try done; by rewrite app_nil_r. }
  split; rewrite ?Harr; try done; intros k; rewrite Hsame; auto.
Qed.

Lemma step_consistent evs s ev s' :
  consistent evs s → step s ev = Some s' → consistent (evs ++ [ev]) s'.
Proof.
  intros Hs Hstep. pose proof Hs as [Hn Hfl Han Hna].
  destruct ev as [t req|k d|k|k|k e|e|k d]; cbn in Hstep;
    [| | | | |injection Hstep as <-; by apply consistent_unchanged
     |destruct (answers s !! k); [|done]; injection Hstep as <-;
      by apply consistent_unchanged].
  - injection Hstep as <-.
    split; cbn; rewrite ?arrivals_snoc, ?length_app; cbn.
    + lia.
    + intros k cl. rewrite delivered_to_snoc, app_nil_r.
      destruct (decide (k = next_call s)) as [->|Hne].
      * rewrite lookup_insert_eq. intros [= <-]. cbn.
        rewrite Hna by lia. split; [|done]. exists t, req.
        split; [|done]. rewrite Hn. apply list_lookup_middle. done.
      * rewrite lookup_insert_ne by done. intros Hk.
        destruct (Hfl _ _ Hk) as [(t' & req' & Hk' & Hcmd) Hcy].
        split; [|done]. exists t', req'. split; [|done].
        by apply lookup_app_l_Some.
    + intros k r Hk. rewrite delivered_to_snoc, app_nil_r.
      destruct (Han _ _ Hk) as (Hno & t' & req' & Hk' & Hr).
      apply lookup_lt_Some in Hk' as Hlt. split.
      * rewrite lookup_insert_ne by lia. done.
      * exists t', req'. split; [|done]. by apply lookup_app_l_Some.
    + intros k Hk. rewrite delivered_to_snoc, app_nil_r. apply Hna. lia.
  - destruct (calls s !! k) as [cl|] eqn:Hcl; cbn in Hstep; [|done].
    injection Hstep as <-.
    destruct (Hfl _ _ Hcl) as [(t & req & Hk & Hcmd) Hcy].
    apply lookup_lt_Some in Hk as Hlt.
    split; cbn; rewrite ?arrivals_snoc, ?app_nil_r.
    + done.
    + intros k' cl'. rewrite delivered_to_snoc.
      destruct (decide (k = k')) as [->|Hne].
      * rewrite lookup_insert_eq. intros [= <-]. cbn.
        split; [by exists t, req|]. by rewrite foldl_snoc, Hcy.
      * rewrite lookup_insert_ne, app_nil_r by done. apply Hfl.
    + intros k' r Hk'. rewrite delivered_to_snoc.
      destruct (Han _ _ Hk') as (Hno & Hr).
      assert (k ≠ k') by congruence.
      rewrite decide_False, app_nil_r, lookup_insert_ne by done. auto.
    + intros k' Hk'. rewrite delivered_to_snoc.
      rewrite decide_False, app_nil_r by lia. by apply Hna.
  - destruct (calls s !! k) as [cl|] eqn:Hcl; cbn in Hstep; [|done].
    destruct (finished (call_cycle cl)); cbn in Hstep; [|done].
    injection Hstep as <-.
    apply (consistent_settle _ _ _ cl); [done|done|done|by left].
  - destruct (calls s !! k) as [cl|] eqn:Hcl; cbn in Hstep; [|done].
    destruct (finished (call_cycle cl)); cbn in Hstep; [done|].
    injection Hstep as <-.
    apply (consistent_settle _ _ _ cl); [done|done|done|].
    right. by exists timed_out.
  - destruct (calls s !! k) as [cl|] eqn:Hcl; cbn in Hstep; [|done].
    injection Hstep as <-.
    apply (consistent_settle _ _ _ cl); [done|done|done|]. right. by exists e.
Qed.

Lemma exec_consistent evs s : exec idle evs = Some s → consistent evs s.
Proof.
  revert s. induction evs as [|ev evs IH] using rev_ind; intros s Hex.
  - injection Hex as <-. apply consistent_idle.
  - rewrite exec_snoc in Hex.
    destruct (exec idle evs) as [s0|]; [|done].
    apply (step_consistent _ s0); [by apply IH|done].
Qed.

Lemma in_flight_arrived evs s k cl :
  consistent evs s → calls s !! k = Some cl → (k < next_call s)%nat.
Proof.
  intros [Hn Hfl _ _] Hcl.
  destruct (Hfl _ _ Hcl) as [(t & req & Hk%lookup_lt_Some & _) _]. lia.
Qed.

(** Delivering a run of notifications to a call in flight. *)
Lemma exec_notifies s k cl ds :
  calls s !! k = Some cl →
  exec s (Notifies k <$> ds)
  = Some {| calls := <[k := {| call_command := call_command cl;
                               call_cycle := foldl notif_handler (call_cycle cl) ds |}]>
                       (calls s);
            next_call := next_call s; answers := answers s |}.
Proof.
  revert s cl. induction ds as [|d ds IH]; intros s cl Hcl.
  - cbn. f_equal. destruct s as [cs n ans]. cbn in *. f_equal.
    symmetry. apply insert_id. by destruct cl.
  - rewrite fmap_cons, exec_cons. cbn [step]. rewrite Hcl. cbn [mbind option_bind].
    erewrite IH by (cbn; apply lookup_insert_eq). cbn.
    by rewrite insert_insert_eq.
Qed.

(** The function and the loop agree: a buffer that
    [send_command_and_get_response] returns is the answer of a run in which
    the call receives the notifications it has handled and then returns. *)
Lemma returned_buffer_is_a_run ed lk t req buf :
  send_command_and_get_response ed lk (command_bytes_of t req) REQUEST_TIMEOUT
    = Ok buf →
  ∃ seen s,
    seen `prefix_of` (data <$> notifications lk) ∧
    exec idle (Arrives t req :: (Notifies 0 <$> seen) ++ [Returns 0]) = Some s ∧
    answers s !! 0%nat = Some (respond ed lk (command_bytes_of t req)) ∧
    calls s = ∅.
Proof.
  intros Hout. pose proof (send_command_returns _ _ _ _ _ Hout) as Hs.
  destruct (session_returns _ _ _ _ Hs) as (seen & rid & Hpre & Hfin & Hrid & Hb).
  exists seen. eexists. split; [done|].
  rewrite exec_cons. cbn [step mbind option_bind].
  rewrite exec_snoc.
  erewrite exec_notifies by (cbn; apply lookup_insert_eq).
  cbn [mbind option_bind step calls call_cycle call_command].
  rewrite lookup_insert_eq. cbn [mbind option_bind call_cycle call_command].
  rewrite Hfin, Hrid. cbn [bind]. rewrite Hb.
  split; [reflexivity|]. unfold settle_call. cbn.
  split.
  - rewrite lookup_insert_eq. unfold respond. by rewrite Hout.
  - by rewrite insert_insert_eq, delete_insert_eq, delete_empty.
Qed.



(** The cases of a step that happens. *)
Lemma step_cases s ev s' :
  step s ev = Some s' →
  (∃ now req,
     ev = Arrives now req ∧
     s' = {| calls := <[next_call s :=
                         {| call_command := command_bytes_of now req;
                            call_cycle := new_cycle |}]> (calls s);
             next_call := S (next_call s); answers := answers s |}) ∨
  (∃ k d cl,
     ev = Notifies k d ∧ calls s !! k = Some cl ∧
     s' = {| calls := <[k := {| call_command := call_command cl;
                                call_cycle := notif_handler (call_cycle cl) d |}]>
                        (calls s);
             next_call := next_call s; answers := answers s |}) ∨
  (∃ k cl r,
     (ev = Returns k ∨ ev = TimesOut k ∨ ∃ e, ev = Breaks k e) ∧
     calls s !! k = Some cl ∧ s' = settle_call s k r) ∨
  s' = s.
Proof.
  destruct ev as [t req|k d|k|k|k e|e|k d]; cbn; intros Hstep;
    [| | | | |do 3 right; by injection Hstep
     |do 3 right; destruct (answers s !! k); [|done]; by injection Hstep].
  - left. injection Hstep as <-. exists t, req. split; reflexivity.
  - right; left. destruct (calls s !! k) as [cl|] eqn:Hcl; [|done].
    injection Hstep as <-. by exists k, d, cl.
  - right; right; left.
    destruct (calls s !! k) as [cl|] eqn:Hcl; [|done]. cbn in Hstep.
    destruct (finished (call_cycle cl)); [|done]. injection Hstep as <-.
    eexists k, cl, _. split; [|done]. eauto.
  - right; right; left.
    destruct (calls s !! k) as [cl|] eqn:Hcl; [|done]. cbn in Hstep.
    destruct (finished (call_cycle cl)); [done|]. injection Hstep as <-.
    eexists k, cl, _. split; [|done]. eauto.
  - right; right; left. destruct (calls s !! k) as [cl|] eqn:Hcl; [|done].
    injection Hstep as <-. eexists k, cl, _. split; [|done]. eauto.
Qed.

End server_facts.

Section server_claims.
Context `{Runtime}.
Implicit Types (s : server) (evs : list event) (k : nat).

(** The globals after a call are those the device resolution leaves, or
    those before the call when the body could not be read. *)
Lemma handle_request_state ed st w req :
  (handle_request ed st w req).1
  = match read req with
    | Ok _ => (resolve_device st w).1
    | Raise _ => st
    end.
Proof.
  unfold handle_request. destruct (read req); [|done].
  by destruct (resolve_device st w) as [st' [[]|e]].
Qed.


Lemma one_at_a_time_snoc s evs ev :
  one_at_a_time s (evs ++ [ev])
  = one_at_a_time s evs ≫= λ s',
      match ev with
      | Arrives _ _ => if decide (calls s' = ∅) then step s' ev else None
      | _ => step s' ev
      end.
Proof. unfold one_at_a_time. by rewrite foldl_snoc. Qed.

(** C7, as the code has it: the handler takes no lock, so single flight
    is what the arrival of the requests makes it.  In a run in which each
    request arrives while no call is in flight, at most one call is in
    flight at every instant. *)
Theorem C7_single_flight_when_serial evs s :
  one_at_a_time idle evs = Some s →
  exec idle evs = Some s ∧ (size (calls s) ≤ 1)%nat.
Proof.
  revert s. induction evs as [|ev evs IH] using rev_ind; intros s Hrun.
  - injection Hrun as <-. split; [done|].
    unfold idle. cbn [calls]. rewrite map_size_empty. lia.
  - rewrite one_at_a_time_snoc in Hrun. rewrite exec_snoc.
    destruct (one_at_a_time idle evs) as [s0|]; [|done]. cbn in Hrun.
    destruct (IH s0 eq_refl) as [-> Hsize]. cbn.
    assert (step s0 ev = Some s ∧
            (∀ t req, ev = Arrives t req → calls s0 = ∅)) as [Hstep Hserial].
    { destruct ev; try done. destruct (decide (calls s0 = ∅)); [|done].
      split; [done|]. by intros. }
    split; [done|].
    apply step_cases in Hstep
      as [(t & req & -> & ->)|[(k & d & cl & _ & Hcl & ->)
         |[(k & cl & r & _ & Hcl & ->)| ->]]]; cbn.
    + rewrite (Hserial t req eq_refl), map_size_insert_None, map_size_empty
        by apply lookup_empty. lia.
    + by rewrite map_size_insert_Some.
    + rewrite map_size_delete_Some by done. lia.
    + done.
Qed.

(** C10: the [fragments] of a call are created empty when the call
    starts and are reached by its own notifications only.  At any point of
    any run, a call in flight holds what its own notifications made of an
    empty cycle, and the answer of a call that has ended was assembled for
    its own request from its own notifications, or reports an exception,
    however the calls before it ended; and the globals a call of
    [handle_request] leaves behind do not depend on what its link
    delivered, so the answer to a later request does not either. *)
Theorem C10_cycle_is_local evs s :
  exec idle evs = Some s →
  (∀ t req, ∃ s' cl,
      step s (Arrives t req) = Some s' ∧
      calls s' !! next_call s = Some cl ∧
      call_cycle cl = new_cycle ∧ fragments (call_cycle cl) = ∅) ∧
  (∀ k cl, calls s !! k = Some cl →
      call_cycle cl = foldl notif_handler new_cycle (delivered_to k evs)) ∧
  (∀ k r, answers s !! k = Some r →
      ∃ t req,
        arrivals evs !! k = Some (t, req) ∧
        (r = answer (let! rid := command_id (command_bytes_of t req) in
                     assemble
                       (fragments (foldl notif_handler new_cycle
                                     (delivered_to k evs))) rid) ∨
         (∃ e, r = answer (Raise e)))) ∧
  (∀ ed st w lk req w' req',
      (handle_request ed st (with_link w lk) req).1
        = (handle_request ed st w req).1 ∧
      (handle_request ed (handle_request ed st (with_link w lk) req).1 w' req').2
        = (handle_request ed (handle_request ed st w req).1 w' req').2).
Proof.
  intros [_ Hfl Han _]%exec_consistent. split; [|split; [|split]].
  - intros t req. eexists _, _. split; [done|]. cbn.
    by rewrite lookup_insert_eq.
  - intros k cl Hcl. by destruct (Hfl _ _ Hcl).
  - intros k r Hr. by destruct (Han _ _ Hr) as (_ & ?).
  - intros ed st w lk req w' req'.
    assert ((handle_request ed st (with_link w lk) req).1
            = (handle_request ed st w req).1) as Heq.
    { by rewrite !handle_request_state. }
    by rewrite Heq.
Qed.
End server_claims.

Section adapter_claims.
Context `{Runtime}.

(** C6, as the code has it: a request whose body is read and whose device
    is resolved is answered.  A cycle that raises, by [TimeoutError], by a
    connection error or by anything else, is answered 504 with the text of
    the exception; a buffer that decodes as a response envelope is answered
    with the status, the headers and the body of the envelope; a buffer
    that does not decode is answered 200 with the buffer itself as body.
    What [request.read], [select_device] or [detect_characteristics] raises
    leaves the handler: it is outside both [try] blocks. *)
Theorem C6_handle_request_answers ed st w req :
  let outcome :=
    send_command_and_get_response ed (the_link w)
      (command_bytes_of (clock_ms w) req) REQUEST_TIMEOUT in
  (∀ e, read req = Raise e → handle_request ed st w req = (st, Raise e)) ∧
  (∀ body e,
      read req = Ok body → (resolve_device st w).2 = Raise e →
      (handle_request ed st w req).2 = Raise e) ∧
  (∀ body,
      read req = Ok body → (resolve_device st w).2 = Ok () →
      ∃ r,
        (handle_request ed st w req).2 = Ok r ∧
        (∀ e,
            outcome = Raise e →
            r = {| status := 504; headers := [];
                   body := Text ("Error communicating with device: "
                                 +:+ describe e) |}) ∧
        (∀ buf text items n hs payload,
            outcome = Ok buf →
            utf8_decode buf = Ok text →
            json_loads text = Ok (JDict items) →
            int (default (JInt 200) (items_get items "status")) = Ok n →
            response_headers (default (JDict []) (items_get items "headers"))
              = Ok hs →
            (let body_b64 := default (JStr "") (items_get items "body_b64") in
             if truthy body_b64 then b64decode_value body_b64 else Ok [])
              = Ok payload →
            r = {| status := n; headers := hs; body := Body payload |}) ∧
        (∀ buf e,
            outcome = Ok buf → decode_response buf = Raise e →
            r = {| status := 200; headers := []; body := Body buf |})).
Proof.
  intros outcome. unfold handle_request. split; [|split].
  - by intros e ->.
  - intros body e -> Hres.
    destruct (resolve_device st w) as [st' [[]|e']]; [done|].
    cbn in Hres. by injection Hres as ->.
  - intros body -> Hres.
    destruct (resolve_device st w) as [st' [[]|e]]; [|done].
    eexists. split; [done|]. unfold respond, answer. fold outcome.
    split; [|split].
    + by intros e ->.
    + intros buf text items n hs payload -> Htext Hmsg Hn Hhs Hpay.
      unfold decode_response, web_Response.
      rewrite Htext. cbn [bind]. rewrite Hmsg. cbn [bind get].
      rewrite Hn. cbn [bind]. cbv zeta in Hpay. rewrite Hpay. cbn [bind].
      by rewrite Hhs.
    + by intros buf e -> ->.
Qed.
End adapter_claims.

(** ** Worked cases *)

Module Cases.
Import Sample.

#[local] Existing Instance Ref.runtime.

(** C1 fails as stated: the fragments 0 and 2 of [X] arrive, the second
    final, and fragment 1 never does; the call returns [AC]. *)
Lemma C1_gap_counterexample :
  stored (foldl notif_handler new_cycle [piece0; piece2]) (KStr "X") 1 = None ∧
  finished (foldl notif_handler new_cycle [piece0; piece2]) = true ∧
  send_command_and_get_response Main
    (healthy [at_second 1 piece0; at_second 2 piece2]) command_X REQUEST_TIMEOUT
  = Ok (Ref.utf8_encode "AC").
Proof. by vm_compute. Qed.

(** C3 fails as stated: the three fragments of [ABC] all arrive, the final
    one first; the call returns [C]. *)
Lemma C3_final_first_counterexample :
  assemble (fragments (foldl notif_handler new_cycle
                         (data <$> notifications final_first))) (KStr "X")
  = Ok (Ref.utf8_encode "ABC") ∧
  send_command_and_get_response Main final_first command_X REQUEST_TIMEOUT
  = Ok (Ref.utf8_encode "C") ∧
  send_command_and_get_response Mac final_first command_X REQUEST_TIMEOUT
  = Ok (Ref.utf8_encode "C").
Proof. by vm_compute. Qed.

(** C3 at the scenario of the specification: [B], [A], [C] arrive with the
    sequence numbers 1, 0, 2, the last one final. *)
Lemma C3_assembly_order_independent_witness :
  send_command_and_get_response Main final_last command_X REQUEST_TIMEOUT
  = Ok (Ref.utf8_encode "ABC").
Proof.
  destruct (C3_assembly_order_independent Main final_last command_X
              REQUEST_TIMEOUT (KStr "X")
              [Ref.utf8_encode "A"; Ref.utf8_encode "B"; Ref.utf8_encode "C"]
              [at_second 1 piece1; at_second 2 piece0] (at_second 3 piece2) []
              [ {| frag_id := KStr "X"; frag_seq := 1;
                   frag_payload := Ref.utf8_encode "B"; frag_final := false |};
                {| frag_id := KStr "X"; frag_seq := 0;
                   frag_payload := Ref.utf8_encode "A"; frag_final := false |};
                {| frag_id := KStr "X"; frag_seq := 2;
                   frag_payload := Ref.utf8_encode "C"; frag_final := true |} ])
    as [_ Hcall].
  - reflexivity.
  - reflexivity.
  - reflexivity.
  - vm_compute; reflexivity.
  - reflexivity.
  - repeat constructor.
  - repeat constructor; vm_compute; reflexivity.
  - apply perm_swap.
  - repeat constructor.
  - eexists. split; reflexivity.
  - exact Hcall.
Defined.

(** C4 fails as stated: a message that has none of the fields [id], [seq]
    and [payload_b64] is stored, under the id [None] and the sequence
    number 0, and marks the cycle finished. *)
Lemma C4_missing_fields_counterexample :
  stored (notif_handler new_cycle bare_final) KNone 0 = Some [] ∧
  finished (notif_handler new_cycle bare_final) = true.
Proof. by vm_compute. Qed.

(** C4 at bytes that are not UTF-8. *)
Lemma C4_malformed_is_dropped_witness :
  malformed garbage ∧ notif_handler new_cycle garbage = new_cycle.
Proof.
  assert (malformed garbage) as Hbad
    by (apply (not_utf8 _ UnicodeDecodeError); vm_compute; reflexivity).
  split; [exact Hbad|].
  exact (proj1 (proj1 (C4_malformed_is_dropped new_cycle garbage) Hbad)).
Defined.



(** C6 fails as stated: the assembled buffer is the text [hi], which does
    not decode as a response envelope, and the client is answered 200; and
    a request whose body cannot be read is not answered by the handler. *)
Lemma C6_undecodable_counterexample :
  send_command_and_get_response Main (the_link plain_text_world)
    (command_bytes_of (clock_ms plain_text_world) get_request) REQUEST_TIMEOUT
  = Ok (Ref.utf8_encode "hi") ∧
  decode_response (Ref.utf8_encode "hi") = Raise JSONDecodeError ∧
  handle_request Main resolved plain_text_world get_request
  = (resolved,
     Ok {| status := 200; headers := []; body := Body (Ref.utf8_encode "hi") |}) ∧
  handle_request Main resolved plain_text_world cut_request
  = (resolved, Raise ConnectionResetError).
Proof. by vm_compute. Qed.

(** C6 at the same request. *)
Lemma C6_handle_request_answers_witness :
  ∃ r, (handle_request Main resolved plain_text_world get_request).2 = Ok r ∧
       status r = 200.
Proof.
  destruct (C6_handle_request_answers Main resolved plain_text_world get_request)
    as (_ & _ & Hanswered).
  destruct (Hanswered [] eq_refl eq_refl) as (r & Hr & _ & _ & Hraw).
  exists r. split; [exact Hr|].
  by rewrite (Hraw (Ref.utf8_encode "hi") JSONDecodeError eq_refl eq_refl).
Defined.

(** C7 fails as stated: a second request arrives while the first call is
    waiting, and two calls are in flight. *)
Lemma C7_overlap_counterexample :
  size <$> (calls <$> exec idle run_overlapping) = Some 2%nat.
Proof. by vm_compute. Qed.

(** C7 at a run in which the second request arrives after the first call
    has timed out. *)
Lemma C7_single_flight_when_serial_witness :
  ∃ s, one_at_a_time idle run_serial = Some s ∧ (size (calls s) ≤ 1)%nat.
Proof.
  exists (default idle (one_at_a_time idle run_serial)).
  assert (one_at_a_time idle run_serial
          = Some (default idle (one_at_a_time idle run_serial))) as Hrun
    by (vm_compute; reflexivity).
  split; [exact Hrun|].
  exact (proj2 (C7_single_flight_when_serial run_serial _ Hrun)).
Defined.

(** C8 at two payloads for the slot 1 of [X]. *)
Lemma C8_last_write_wins_witness :
  stored (notif_handler new_cycle piece1) (KStr "X") 1
    = Some (Ref.utf8_encode "B") ∧
  stored (notif_handler (notif_handler new_cycle piece1) piece1_again) (KStr "X") 1
    = Some (Ref.utf8_encode "Z").
Proof.
  apply (C8_last_write_wins new_cycle piece1 piece1_again
           {| frag_id := KStr "X"; frag_seq := 1;
              frag_payload := Ref.utf8_encode "B"; frag_final := false |}
           {| frag_id := KStr "X"; frag_seq := 1;
              frag_payload := Ref.utf8_encode "Z"; frag_final := false |});
    vm_compute; reflexivity.
Defined.

(** C9 at a call whose link also delivers a fragment of the id [Y]. *)
Lemma C9_only_matching_id_witness :
  ∃ rid seen,
    command_id command_X = Ok rid ∧
    seen `prefix_of` [piece0; stray; piece2] ∧
    assemble
      (fragments (foldl notif_handler new_cycle
                    (filter (λ d, carries rid d = true) seen))) rid
    = Ok (Ref.utf8_encode "AC").
Proof.
  destruct (C9_only_matching_id Main
              (healthy [at_second 1 piece0; at_second 2 stray; at_second 3 piece2])
              command_X REQUEST_TIMEOUT (Ref.utf8_encode "AC"))
    as (rid & seen & Hrid & Hseen & Hjoin & _); [vm_compute; reflexivity|].
  by exists rid, seen.
Defined.

(** C10 at a run with one call in flight. *)
Lemma C10_cycle_is_local_witness :
  ∃ cl,
    calls (default idle (exec idle run_pending)) !! 0%nat = Some cl ∧
    call_cycle cl = foldl notif_handler new_cycle (delivered_to 0 run_pending).
Proof.
  destruct (C10_cycle_is_local run_pending
              (default idle (exec idle run_pending)))
    as (_ & Hown & _); [vm_compute; reflexivity|].
  eexists. split; [vm_compute; reflexivity|].
  apply Hown. vm_compute; reflexivity.
Defined.

End Cases.

(** ** Further properties of the fragmenter *)

Lemma range_length_ceiling (len n : Z) :
  0 ≤ len → 0 < n → range_length 0 len n = (len + n - 1) / n.
Proof.
  intros Hlen Hn. unfold range_length.
  destruct (Z.ltb_spec 0 n); [|lia].
  destruct (Z.ltb_spec 0 len).
  - rewrite Z.sub_0_r. replace (len + n - 1) with (len - 1 + 1 * n) by lia.
    by rewrite Z.div_add by lia.
  - replace len with 0 by lia. symmetry. apply Z.div_small. lia.
Qed.

(** A body of [len] bytes is cut into the ceiling of [len / n] chunks, none
    of them empty and none longer than [n]; an empty body gives no chunk, so
    no write. *)
Theorem chunk_bytes_count_and_sizes (b : bytes) (n : Z) :
  0 < n →
  ∃ chunks,
    chunk_bytes b n = Ok chunks ∧
    Z.of_nat (length chunks) = (Z.of_nat (length b) + n - 1) / n ∧
    Forall (λ c, 0 < Z.of_nat (length c) ≤ n) chunks ∧
    (b = [] → chunks = []).
Proof.
  intros Hn. eexists. split; [by apply chunk_bytes_positive|].
  pose proof (range_length_cover (Z.of_nat (length b)) n ltac:(lia) Hn)
    as (Hc0 & Hcov & Hlast).
  pose proof (range_length_ceiling (Z.of_nat (length b)) n ltac:(lia) Hn) as Hceil.
  set (cnt := range_length 0 (Z.of_nat (length b)) n) in *.
  split; [|split].
  - rewrite !length_fmap, length_seq. lia.
  - apply Forall_forall. intros c Hin.
    apply list_elem_of_fmap in Hin as (i & -> & Hin).
    apply list_elem_of_fmap in Hin as (k & -> & Hk).
    apply elem_of_seq in Hk.
    assert (0 < Z.of_nat (length b)) as Hpos.
    { destruct (Z.eq_dec (Z.of_nat (length b)) 0) as [Hz|]; [|lia].
      rewrite Hz, Z.div_small in Hceil by lia. lia. }
    specialize (Hlast Hpos).
    rewrite slice_within by lia.
    rewrite length_take, length_drop. nia.
  - intros ->. subst cnt. rewrite Hceil. cbn [length].
    change (Z.of_nat 0) with 0. rewrite Z.div_small by lia. done.
Qed.

(** A chunk size of zero is a [ValueError]; a negative one gives no chunk
    at all, whatever the body. *)
Theorem chunk_bytes_degenerate (b : bytes) (n : Z) :
  chunk_bytes b 0 = Raise ValueError ∧
  (n < 0 → chunk_bytes b n = Ok []).
Proof.
  split; [done|]. intros Hn. unfold chunk_bytes, range, range_length.
  destruct (Z.eqb_spec n 0); [lia|].
  destruct (Z.ltb_spec 0 n); [lia|].
  destruct (Z.ltb_spec (Z.of_nat (length b)) 0); [lia|]. done.
Qed.

(** ** Further properties of the reassembler *)

Section reassembler_more.
Context `{Runtime}.
Implicit Types (c : cycle) (d : bytes) (ds : list bytes).

Lemma stored_kept c ds rid seq p :
  stored c rid seq = Some p →
  is_Some (stored (foldl notif_handler c ds) rid seq).
Proof.
  revert c p. induction ds as [|d ds IH]; intros c p Hp; [by eexists|].
  cbn [foldl]. unfold notif_handler at 2.
  destruct (decode_fragment d) as [f|e]; [|by eapply IH].
  destruct (decide (frag_id f = rid)) as [<-|Hne].
  - destruct (decide (frag_seq f = seq)) as [<-|Hseq].
    + eapply (IH _ (frag_payload f)). unfold stored, ingest. cbn.
      by rewrite parts_of_store_eq, lookup_insert_eq.
    + eapply (IH _ p). unfold stored, ingest in *. cbn.
      by rewrite parts_of_store_eq, lookup_insert_ne.
  - eapply (IH _ p). unfold stored, ingest in *. cbn.
    by rewrite parts_of_store_ne.
Qed.

(** The handler only adds to a cycle.  Once [finished] is set no
    notification clears it, and a slot that holds a payload holds one after
    any further notifications: nothing is ever removed from [fragments]. *)
Theorem notifications_only_add c ds :
  (finished c = true → finished (foldl notif_handler c ds) = true) ∧
  (∀ rid seq, is_Some (stored c rid seq) →
              is_Some (stored (foldl notif_handler c ds) rid seq)).
Proof.
  split; [apply finished_kept|]. intros rid seq [p Hp]. by eapply stored_kept.
Qed.

Lemma store_twice f frs : store f (store f frs) = store f frs.
Proof.
  unfold store at 1. rewrite parts_of_store_eq. unfold store.
  by rewrite !insert_insert_eq.
Qed.

(** A notification delivered twice in a row has the effect of one
    delivery. *)
Theorem notif_handler_repeated c d :
  notif_handler (notif_handler c d) d = notif_handler c d.
Proof.
  unfold notif_handler. destruct (decode_fragment d) as [f|e] eqn:Hd;
    rewrite ?Hd; [|done].
  unfold ingest. cbn. rewrite store_twice. f_equal.
  by destruct (frag_final f), (finished c).
Qed.

Lemma store_exchange f1 f2 frs :
  (frag_id f1, frag_seq f1) ≠ (frag_id f2, frag_seq f2) →
  store f2 (store f1 frs) = store f1 (store f2 frs).
Proof.
  intros Hne. destruct (decide (frag_id f1 = frag_id f2)) as [Hid|Hid].
  - assert (frag_seq f1 ≠ frag_seq f2) as Hseq by congruence.
    unfold store at 1 3. rewrite <- Hid at 1 2.
    rewrite Hid at 3 4. rewrite (parts_of_store_eq f1).
    rewrite <- Hid at 1. rewrite (parts_of_store_eq f2).
    unfold store. rewrite Hid, !insert_insert_eq.
    f_equal. by apply insert_insert_ne.
  - unfold store at 1 3.
    rewrite (parts_of_store_ne f1), (parts_of_store_ne f2) by done.
    unfold store. by apply insert_insert_ne.
Qed.

(** Two notifications that do not fill the same slot can be delivered in
    either order: the cycle they leave is the same. *)
Theorem notif_handler_exchange c d1 d2 :
  (∀ f1 f2, decode_fragment d1 = Ok f1 → decode_fragment d2 = Ok f2 →
            (frag_id f1, frag_seq f1) ≠ (frag_id f2, frag_seq f2)) →
  notif_handler (notif_handler c d1) d2 = notif_handler (notif_handler c d2) d1.
Proof.
  intros Hne. unfold notif_handler.
  destruct (decode_fragment d1) as [f1|e1] eqn:Hd1,
           (decode_fragment d2) as [f2|e2] eqn:Hd2; try done.
  unfold ingest. cbn. rewrite (store_exchange f1 f2) by by apply Hne.
  f_equal. by destruct (frag_final f1), (frag_final f2), (finished c).
Qed.
End reassembler_more.

(** ** Further properties of the session *)

Section session_more.
Context `{Runtime}.
Implicit Types (c : cycle) (lk : link).

Lemma write_all_first_failure lk (chunks : list bytes) (k : nat) chunk e base :
  chunks !! k = Some chunk →
  (∀ j ch, (j < k)%nat → chunks !! j = Some ch →
           write_gatt_char lk (base + j) ch = Ok ()) →
  write_gatt_char lk (base + k) chunk = Raise e →
  write_all lk base chunks = Raise e.
Proof.
  revert k base. induction chunks as [|ch chunks IH]; intros k base Hk Hok He;
    [done|].
  cbn [write_all]. destruct k as [|k].
  - injection Hk as ->. by rewrite Nat.add_0_r in He; rewrite He.
  - rewrite <- (Nat.add_0_r base) at 1.
    rewrite (Hok 0%nat ch) by (done || lia). cbn [bind].
    apply (IH k); [done| |].
    + intros j ch' Hj Hch'. rewrite Nat.add_succ_comm.
      apply Hok; [lia|done].
    + by rewrite Nat.add_succ_comm.
Qed.

(** The writes stop at the first one that raises, and its exception ends
    the call, whatever the peripheral has notified: a command that could not
    be written in full is never answered from fragments. *)
Theorem failed_write_ends_call lk cmd timeout chunks (k : nat) chunk e :
  connect lk = Ok () →
  start_notify lk = Ok () →
  chunk_bytes cmd BLE_CHUNK_SIZE = Ok chunks →
  chunks !! k = Some chunk →
  (∀ j ch, (j < k)%nat → chunks !! j = Some ch →
           write_gatt_char lk j ch = Ok ()) →
  write_gatt_char lk k chunk = Raise e →
  send_command_and_get_response Main lk cmd timeout = Raise e.
Proof.
  intros Hc Hn Hch Hk Hok He.
  rewrite send_command_of_session, Hc. cbn [bind]. unfold session.
  rewrite Hn, Hch. cbn [bind].
  by rewrite (write_all_first_failure lk chunks k chunk e 0).
Qed.

End session_more.

(** ** Further properties of the adapter *)

Section adapter_more.
Context {rt : Runtime}.

(** The id of a request is [req-] followed by the clock reading in
    milliseconds: two requests have the same id exactly when they are built
    at the same reading. *)
Theorem request_id_per_millisecond t t' req req' :
  getitem (envelope t req) "id" = Ok (JStr ("req-" +:+ pretty t)) ∧
  (getitem (envelope t req) "id" = getitem (envelope t' req') "id" ↔ t = t').
Proof.
  split; [done|]. split; [|by intros ->].
  cbn. intros [= Heq]. by apply (inj pretty).
Qed.

(** No failure of the cycle leaves the handler: [handle_request] raises
    exactly when the read of the body raises, or when the body is read, no
    address is known and the scan or the detection raises. *)
Theorem handler_raises_before_the_cycle ed st w req e :
  (handle_request ed st w req).2 = Raise e ↔
  read req = Raise e ∨
  (∃ body, read req = Ok body) ∧
  unset (connected_address st) = true ∧
  (select_device w = Raise e ∨
   (∃ a, select_device w = Ok a) ∧ detect_characteristics w = Raise e).
Proof.
  unfold handle_request, resolve_device.
  destruct (read req) as [body|e0]; cbn.
  - destruct (connected_address st) as [[|ch rest]|]; cbn;
      destruct (select_device w) as [addr|e1]; cbn;
      try destruct (detect_characteristics w) as [[c r]|e2]; cbn;
      (split; [intros Hx|intros [Hx|(_ & Hu & [Hs|[[x Hs] Hd]])]]);
      simplify_eq; eauto 8.
  - split; [intros [= ->]; by left|].
    intros [[= ->]|([body Hb] & _)]; [done|discriminate].
Qed.

(** A detection that fails is not tried again: the address chosen in the
    scan is kept although no characteristic is known, and the next requests
    run their cycle with it.  A request whose body cannot be read changes
    nothing and raises what the read raised. *)
Theorem failed_detection_is_not_retried ed w req a e w' req' :
  select_device w = Ok (Some a) →
  a ≠ "" →
  detect_characteristics w = Raise e →
  let st :=
    {| connected_address := Some a; CMD_CHAR := None; RESP_CHAR := None |} in
  handle_request ed initial_proxy w req
  = match read req with
    | Ok _ => (st, Raise e)
    | Raise e' => (initial_proxy, Raise e')
    end ∧
  handle_request ed st w' req'
  = (st,
     match read req' with
     | Ok _ => Ok (respond ed (the_link w') (command_bytes_of (clock_ms w') req'))
     | Raise e' => Raise e'
     end).
Proof.
  intros Hsel Ha Hdet. unfold handle_request, resolve_device. cbn.
  rewrite Hsel, Hdet.
  destruct (read req), (read req'); cbn; by destruct a.
Qed.

(** While nothing is chosen the scan is repeated: after a request whose
    scan selected no device, whether the detection then raised or not, no
    address is known and the next request scans again. *)
Theorem empty_selection_is_scanned_again ed st w req a :
  unset (connected_address st) = true →
  select_device w = Ok a →
  unset a = true →
  unset (connected_address (handle_request ed st w req).1) = true ∧
  ∀ w' req',
    (handle_request ed (handle_request ed st w req).1 w' req').2
    = (handle_request ed initial_proxy w' req').2.
Proof.
  intros Hst Hsel Ha.
  assert (unset (connected_address (handle_request ed st w req).1) = true) as Hu.
  { unfold handle_request, resolve_device.
    destruct (read req); [|done]. rewrite Hsel.
    destruct (connected_address st) as [[|ch rest]|]; try done;
      destruct (detect_characteristics w) as [[c r]|e]; done. }
  split; [done|]. intros w' req'.
  revert Hu. generalize (handle_request ed st w req).1. intros st' Hu.
  unfold handle_request, resolve_device. cbn [connected_address initial_proxy].
  destruct (read req'); [|done].
  destruct (connected_address st') as [[|ch rest]|]; try done;
    destruct (select_device w') as [addr|e1]; try done;
    destruct (detect_characteristics w') as [[c r]|e2]; done.
Qed.
End adapter_more.

(** ** Device selection and connection: properties *)

Section device_facts.
Context `{Runtime}.

(** The number typed is a Python index into the list of devices: from 0 it
    counts from the front, below 0 from the end, and outside the list it
    selects nothing, without an error. *)
Theorem select_device_by_index (devices : list device) (text : string) (i : Z) :
  devices ≠ [] →
  int_of_str text = Ok i →
  let n := Z.of_nat (length devices) in
  let chosen := Device.select_device (Ok devices) (Ok text) in
  (0 ≤ i < n → chosen = Ok (dev_address <$> devices !! Z.to_nat i)) ∧
  (- n ≤ i < 0 → chosen = Ok (dev_address <$> devices !! Z.to_nat (i + n))) ∧
  (i < - n ∨ n ≤ i → chosen = Ok None).
Proof.
  intros Hne Hi n chosen. subst chosen. unfold Device.select_device.
  cbn [bind]. rewrite Hi. cbn [bind]. unfold list_item. fold n.
  destruct devices as [|d0 devices]; [done|].
  split; [|split]; intros Hr.
  - destruct (Z.ltb_spec i 0); [lia|].
    destruct (Z.leb_spec 0 i); [|lia].
    destruct (Z.ltb_spec i n); [|lia]. cbn [andb].
    by destruct ((d0 :: devices) !! Z.to_nat i).
  - destruct (Z.ltb_spec i 0); [|lia].
    destruct (Z.leb_spec 0 (i + n)); [|lia].
    destruct (Z.ltb_spec (i + n) n); [|lia]. cbn [andb].
    by destruct ((d0 :: devices) !! Z.to_nat (i + n)).
  - destruct (Z.ltb_spec i 0).
    + destruct (Z.leb_spec 0 (i + n)); [|done].
      destruct (Z.ltb_spec (i + n) n); [lia|done].
    + destruct (Z.leb_spec 0 i); [|done].
      destruct (Z.ltb_spec i n); [lia|done].
Qed.

Lemma list_item_elem_of {A} (l : list A) i x : list_item l i = Some x → x ∈ l.
Proof.
  unfold list_item. destruct (_ && _); [|done].
  intros Hx. by eapply list_elem_of_lookup_2.
Qed.

(** The scan decides what can be chosen: an address that [select_device]
    returns is the address of a discovered device, and when nothing is
    discovered it returns [None] without reading the input. *)
Theorem select_device_only_discovered (discover : result (list device))
    (typed : result string) :
  (∀ a, Device.select_device discover typed = Ok (Some a) →
        ∃ devices d,
          discover = Ok devices ∧ d ∈ devices ∧ dev_address d = a) ∧
  (discover = Ok [] → Device.select_device discover typed = Ok None).
Proof.
  split; [|by intros ->]. intros a. unfold Device.select_device.
  destruct discover as [devices|e]; [|done]. cbn [bind].
  destruct devices as [|d0 devices]; [done|].
  destruct typed as [text|e]; cbn [bind]; [|by destruct e].
  destruct (int_of_str text) as [i|e]; cbn [bind]; [|by destruct e].
  destruct (list_item (d0 :: devices) i) as [d|] eqn:Hd; [|done].
  intros [= <-]. exists (d0 :: devices), d. split; [done|].
  split; [|done]. by eapply list_item_elem_of.
Qed.
End device_facts.

Lemma range_from_zero (n : Z) :
  range 0 n 1 = Ok (Z.of_nat <$> seq 0 (Z.to_nat n)).
Proof.
  unfold range, range_length. cbn.
  assert (Z.to_nat (if 0 <? n then (n - 0 - 1) / 1 + 1 else 0) = Z.to_nat n)
    as ->.
  { destruct (Z.ltb_spec 0 n); [|lia]. rewrite Z.div_1_r. lia. }
  f_equal. apply list_fmap_ext. intros _ k _. lia.
Qed.

Lemma try_attempts_spec attempts (a n : nat) slept :
  match Device.try_attempts attempts (Z.of_nat <$> seq a n) slept with
  | (slept', Ok k) =>
      (Z.of_nat a ≤ k < Z.of_nat (a + n)) ∧
      attempts (Z.to_nat k) = Connects ∧
      (∀ j, (a ≤ j < Z.to_nat k)%nat → attempts j ≠ Connects) ∧
      slept + 2 * (k - Z.of_nat a) + 4 ≤ slept' ≤ slept + 5 * (k - Z.of_nat a) + 4
  | (slept', Raise e) =>
      e = BleakError ∧
      (∀ j, (a ≤ j < a + n)%nat → attempts j ≠ Connects) ∧
      slept + 2 * Z.of_nat n ≤ slept' ≤ slept + 5 * Z.of_nat n
  end.
Proof.
  revert a slept. induction n as [|n IH]; intros a slept.
  - cbn. split; [done|]. split; [lia|lia].
  - cbn [seq fmap list_fmap Device.try_attempts]. rewrite Nat2Z.id.
    destruct (attempts a) eqn:Ha.
    + split; [lia|]. rewrite Nat2Z.id. split; [done|]. split; [lia|lia].
    + specialize (IH (S a) (slept + 2)).
      destruct (Device.try_attempts attempts (Z.of_nat <$> seq (S a) n) (slept + 2))
        as [slept' [k|e]].
      * destruct IH as (Hk & Hc & Hfirst & Hs). split; [lia|].
        split; [done|]. split; [|lia]. intros j Hj.
        destruct (decide (j = a)) as [->|]; [congruence|apply Hfirst; lia].
      * destruct IH as (-> & Hnone & Hs). split; [done|]. split; [|lia].
        intros j Hj.
        destruct (decide (j = a)) as [->|]; [congruence|apply Hnone; lia].
    + specialize (IH (S a) (slept + 2 + 3)).
      destruct (Device.try_attempts attempts (Z.of_nat <$> seq (S a) n) (slept + 2 + 3))
        as [slept' [k|e']].
      * destruct IH as (Hk & Hc & Hfirst & Hs). split; [lia|].
        split; [done|]. split; [|lia]. intros j Hj.
        destruct (decide (j = a)) as [->|]; [congruence|apply Hfirst; lia].
      * destruct IH as (-> & Hnone & Hs). split; [done|]. split; [|lia].
        intros j Hj.
        destruct (decide (j = a)) as [->|]; [congruence|apply Hnone; lia].
Qed.

(** [safe_connect] returns the client of the first attempt that connects
    among the first [retries] ones; when none of them connects it raises
    [BleakError], whatever the attempts themselves raised. *)
Theorem safe_connect_first_success (attempts : nat → attempt) (retries : Z) :
  match (Device.safe_connect attempts retries).2 with
  | Ok k =>
      0 ≤ k < retries ∧
      attempts (Z.to_nat k) = Connects ∧
      (∀ j, (j < Z.to_nat k)%nat → attempts j ≠ Connects)
  | Raise e =>
      e = BleakError ∧
      (∀ j, (Z.of_nat j < retries) → attempts j ≠ Connects)
  end.
Proof.
  unfold Device.safe_connect. rewrite range_from_zero.
  pose proof (try_attempts_spec attempts 0 (Z.to_nat retries) 0) as Hspec.
  destruct (Device.try_attempts attempts (Z.of_nat <$> seq 0 (Z.to_nat retries)) 0)
    as [slept [k|e]]; cbn.
  - destruct Hspec as (Hk & Hc & Hfirst & _). split; [lia|]. split; [done|].
    intros j Hj. apply Hfirst. lia.
  - destruct Hspec as (-> & Hnone & _). split; [done|].
    intros j Hj. apply Hnone. lia.
Qed.

(** The pauses of [safe_connect] add up to between 2 and 5 seconds for each
    attempt that did not connect, and 4 seconds for the one that did: with
    the three attempts of the default it gives up after at most 15
    seconds of pauses. *)
Theorem safe_connect_pauses (attempts : nat → attempt) (retries : Z) :
  match Device.safe_connect attempts retries with
  | (slept, Ok k) => 2 * k + 4 ≤ slept ≤ 5 * k + 4
  | (slept, Raise _) => 2 * Z.max 0 retries ≤ slept ≤ 5 * Z.max 0 retries
  end.
Proof.
  unfold Device.safe_connect. rewrite range_from_zero.
  pose proof (try_attempts_spec attempts 0 (Z.to_nat retries) 0) as Hspec.
  destruct (Device.try_attempts attempts (Z.of_nat <$> seq 0 (Z.to_nat retries)) 0)
    as [slept [k|e]].
  - destruct Hspec as (_ & _ & _ & Hs). lia.
  - destruct Hspec as (_ & _ & Hs). lia.
Qed.

(** ** Detection of the characteristics: properties *)

Lemma filter_on_members {A} (P1 P2 : A → Prop)
    `{!∀ x, Decision (P1 x)} `{!∀ x, Decision (P2 x)} (l : list A) :
  (∀ x, x ∈ l → P1 x ↔ P2 x) → filter P1 l = filter P2 l.
Proof.
  induction l as [|x l IH]; intros Heq; [done|].
  rewrite !filter_cons.
  destruct (decide (P1 x)) as [H1|H1], (decide (P2 x)) as [H2|H2].
  - f_equal. apply IH. intros y Hy. apply Heq. by right.
  - destruct H2. apply Heq; [by left|done].
  - destruct H1. apply Heq; [by left|done].
  - apply IH. intros y Hy. apply Heq. by right.
Qed.

Lemma filter_of_fmap {A B} (f : A → B) (P : B → Prop)
    `{!∀ y, Decision (P y)} (l : list A) :
  filter P (f <$> l) = f <$> filter (λ x, P (f x)) l.
Proof.
  induction l as [|x l IH]; [done|].
  rewrite fmap_cons, !filter_cons. destruct (decide (P (f x))); by rewrite IH.
Qed.

Lemma head_fmap {A B} (f : A → B) (l : list A) : head (f <$> l) = f <$> head l.
Proof. by destruct l. Qed.

(** The characteristic a uuid stands for, when no two share a uuid. *)
Lemma first_of_uuid (chars : list characteristic) (c : characteristic) :
  NoDup (uuid <$> chars) → c ∈ chars →
  head (filter (λ c', uuid c' = uuid c) chars) = Some c.
Proof.
  induction chars as [|c0 chars IH]; intros Hnd Hin; [by apply elem_of_nil in Hin|].
  rewrite fmap_cons in Hnd. apply NoDup_cons in Hnd as [Hc0 Hnd].
  apply elem_of_cons in Hin as [->|Hin].
  - by rewrite filter_cons_True.
  - rewrite filter_cons_False; [by apply IH|].
    intros Heq. apply Hc0. rewrite Heq. apply list_elem_of_fmap. by exists c.
Qed.

Lemma main_possible_chars (services : list service) :
  MainEdition.possible_chars services
  = uuid <$> filter (λ c, has "write" (properties c)
                          || has "notify" (properties c) = true)
                    (all_chars services).
Proof.
  unfold MainEdition.possible_chars.
  induction (all_chars services) as [|c chars IH]; [done|].
  cbn [mbind list_bind]. rewrite filter_cons, IH.
  destruct (has "write" (properties c) || has "notify" (properties c));
    [by rewrite decide_True|by rewrite decide_False].
Qed.

Lemma pick_from (services : list service) found (l : list string) :
  foldl (MainEdition.keep_first services) found l
  = (match found.1 with
     | None =>
         head (filter (λ u, has "write" (MainEdition.props_of services u) = true) l)
     | cmd_char => cmd_char
     end,
     match found.2 with
     | None =>
         head (filter (λ u, has "notify" (MainEdition.props_of services u) = true) l)
     | resp_char => resp_char
     end).
Proof.
  revert found. induction l as [|u l IH]; intros [cmd resp].
  - by destruct cmd, resp.
  - cbn [foldl]. rewrite IH. unfold MainEdition.keep_first. cbn [fst snd].
    rewrite !filter_cons.
    f_equal.
    + destruct cmd; [done|].
      by destruct (has "write" _) eqn:Hw; rewrite ?decide_True, ?decide_False by done.
    + destruct resp; [done|].
      by destruct (has "notify" _) eqn:Hn; rewrite ?decide_True, ?decide_False by done.
Qed.

(** The first uuid of [possible] whose looked-up properties hold [p] is
    the uuid of the first characteristic that offers [p], when the uuids
    are distinct. *)
Lemma main_first_with (services : list service) (p : string) :
  NoDup (uuid <$> all_chars services) →
  (p = "write" ∨ p = "notify") →
  head (filter (λ u, has p (MainEdition.props_of services u) = true)
               (MainEdition.possible_chars services))
  = first_with p (all_chars services).
Proof.
  intros Hnd Hp. unfold first_with.
  rewrite main_possible_chars, filter_of_fmap, head_fmap. do 2 f_equal.
  rewrite list_filter_filter. apply filter_on_members. intros c Hc.
  unfold MainEdition.props_of. rewrite (first_of_uuid _ c Hnd Hc). cbn.
  split; [by intros [? _]|]. intros Hhas. split; [done|].
  destruct Hp as [-> | ->]; rewrite Hhas; [done|apply orb_true_r].
Qed.

Lemma mac_first_with_possible (services : list service) (p : string) :
  (p = "read" ∨ p = "write" ∨ p = "notify") →
  first_with p (MacEdition.possible_chars services)
  = first_with p (all_chars services).
Proof.
  intros Hp. unfold first_with, MacEdition.possible_chars.
  do 2 f_equal. apply list_filter_filter_l. intros c Hhas.
  destruct Hp as [-> | [-> | ->]]; rewrite Hhas; by rewrite ?orb_true_r.
Qed.

Lemma first_with_Some (p : string) (chars : list characteristic) u :
  first_with p chars = Some u →
  ∃ c, c ∈ chars ∧ uuid c = u ∧ has p (properties c) = true.
Proof.
  unfold first_with.
  destruct (head _) as [c|] eqn:Hc; [|done]. intros [= <-].
  apply head_Some_elem_of, list_elem_of_filter in Hc as [Hp Hin]. eauto.
Qed.

Lemma first_with_None (p : string) (chars : list characteristic) :
  first_with p chars = None ↔
  Forall (λ c, has p (properties c) = false) chars.
Proof.
  unfold first_with. rewrite fmap_None.
  induction chars as [|c chars IH]; [by split|].
  rewrite filter_cons, Forall_cons.
  destruct (decide _) as [Hc|Hc%not_true_is_false]; cbn.
  - split; [done|]. intros [? _]. congruence.
  - rewrite IH. tauto.
Qed.

Lemma unset_first_with (p : string) (chars : list characteristic) :
  Forall (λ c, uuid c ≠ "") chars →
  unset (first_with p chars)
  = bool_decide (first_with p chars = None).
Proof.
  intros Hne. destruct (first_with p chars) as [u|] eqn:Hu; [|done].
  apply first_with_Some in Hu as (c & Hin & <- & _).
  rewrite Forall_forall in Hne. specialize (Hne c Hin).
  by destruct (uuid c).
Qed.

Lemma head_filter_elem_of {A} (P : A → Prop) `{!∀ x, Decision (P x)}
    (l : list A) x :
  head (filter P l) = Some x → x ∈ l.
Proof. by intros [_ ?]%head_Some_elem_of%list_elem_of_filter. Qed.

Lemma fallback_member (found : option string) (d : string) (l : list string) :
  (∀ u, found = Some u → u ∈ l) → d ∈ l →
  ∃ c, (if unset found then Some d else found) = Some c ∧ c ∈ l.
Proof.
  intros Hfound Hd. destruct found as [[|a u]|]; cbn; eauto.
Qed.

Lemma fallback_first_with (p : string) (chars : list characteristic) (d : string) :
  Forall (λ c, uuid c ≠ "") chars →
  (if unset (first_with p chars) then Some d else first_with p chars)
  = Some (default d (first_with p chars)).
Proof.
  intros Hne. rewrite (unset_first_with p chars Hne).
  by destruct (first_with p chars).
Qed.

(** In [main.py] a detection that returns gives two uuids, and both belong
    to characteristics that offer [write] or [notify]. *)
Theorem main_detection_returns_offered attempts services disconnect cmd resp :
  MainEdition.detect_characteristics attempts services disconnect
    = Ok (cmd, resp) →
  ∃ c r,
    cmd = Some c ∧ resp = Some r ∧
    c ∈ MainEdition.possible_chars services ∧
    r ∈ MainEdition.possible_chars services.
Proof.
  unfold MainEdition.detect_characteristics.
  destruct (Device.safe_connect attempts 3).2; [|done]. cbn [bind].
  destruct services as [|sv services]; [done|].
  set (svs := sv :: services).
  destruct (MainEdition.possible_chars svs) as [|first possible]; [done|].
  unfold MainEdition.pick. rewrite pick_from. cbn [fst snd].
  set (l := first :: possible).
  set (W := head (filter (λ u, has "write" (MainEdition.props_of svs u) = true) l)).
  set (N := head (filter (λ u, has "notify" (MainEdition.props_of svs u) = true) l)).
  destruct (fallback_member W first l) as (c & Hc & Hcl);
    [intros u Hu; by eapply head_filter_elem_of|by left|].
  rewrite Hc.
  destruct (fallback_member N c l) as (r & Hr & Hrl);
    [intros u Hu; by eapply head_filter_elem_of|done|].
  rewrite Hr.
  destruct disconnect; [|done]. cbn [bind]. intros [= <- <-]. by exists c, r.
Qed.

Lemma main_detect_spec attempts services k disconnect :
  NoDup (uuid <$> all_chars services) →
  Forall (λ c, uuid c ≠ "") (all_chars services) →
  (Device.safe_connect attempts 3).2 = Ok k →
  MainEdition.detect_characteristics attempts services disconnect
  = match MainEdition.possible_chars services with
    | [] => Raise RuntimeError
    | first :: _ =>
        let cmd := default first (first_with "write" (all_chars services)) in
        let! _ := disconnect in
        Ok (Some cmd,
            Some (default cmd (first_with "notify" (all_chars services))))
    end.
Proof.
  intros Hnd Hne Hk. unfold MainEdition.detect_characteristics.
  rewrite Hk. cbn [bind].
  destruct services as [|sv services]; [done|].
  set (svs := sv :: services) in *.
  pose proof (main_first_with svs "write" Hnd ltac:(by left)) as Hw.
  pose proof (main_first_with svs "notify" Hnd ltac:(by right)) as Hn.
  destruct (MainEdition.possible_chars svs) as [|first possible]; [done|].
  unfold MainEdition.pick. rewrite pick_from. cbn [fst snd].
  rewrite Hw, Hn.
  rewrite (fallback_first_with "write" _ first Hne).
  by rewrite (fallback_first_with "notify" _ _ Hne).
Qed.

(** In [main.py], when the uuids are distinct and not empty, the command
    characteristic is the first one that offers [write], or else the first
    one that offers [notify]; the response characteristic is the first one
    that offers [notify], or else the command characteristic.  Without any
    such characteristic the detection raises [RuntimeError]. *)
Theorem main_detection_picks_first attempts services k :
  NoDup (uuid <$> all_chars services) →
  Forall (λ c, uuid c ≠ "") (all_chars services) →
  (Device.safe_connect attempts 3).2 = Ok k →
  MainEdition.detect_characteristics attempts services (Ok ())
  = match MainEdition.possible_chars services with
    | [] => Raise RuntimeError
    | first :: _ =>
        let cmd := default first (first_with "write" (all_chars services)) in
        Ok (Some cmd,
            Some (default cmd (first_with "notify" (all_chars services))))
    end.
Proof.
  intros Hnd Hne Hk. rewrite (main_detect_spec _ _ k) by done.
  by destruct (MainEdition.possible_chars services).
Qed.

Lemma mac_detect_body_spec pr (services : list service) :
  Forall (λ c, uuid c ≠ "") (all_chars services) →
  MacEdition.possible_chars services ≠ [] →
  MacEdition.detect_body pr true services
  = let chars := all_chars services in
    let cmd := match first_with "write" chars with
               | Some w => Some w
               | None => first_with "read" chars
               end in
    let resp := match first_with "notify" chars with
                | Some n => Some n
                | None => cmd
                end in
    (MacEdition.tests pr cmd resp, Ok (cmd, resp)).
Proof.
  intros Hne Hposs. unfold MacEdition.detect_body. cbn [negb].
  destruct services as [|sv services]; [done|].
  set (svs := sv :: services) in *.
  destruct (MacEdition.possible_chars svs) as [|p0 possible] eqn:Hp; [done|].
  rewrite <- Hp.
  rewrite !mac_first_with_possible by auto. cbv zeta.
  assert (∀ p u, first_with p (all_chars svs) = Some u → u ≠ "") as Hnz.
  { intros p u (c & Hin & <- & _)%first_with_Some.
    rewrite Forall_forall in Hne. by apply Hne. }
  destruct (first_with "write" (all_chars svs)) as [[|a w]|] eqn:Hw;
    [by apply Hnz in Hw| |];
    destruct (first_with "notify" (all_chars svs)) as [[|b n]|] eqn:Hn;
    try (by apply Hnz in Hn); try reflexivity;
    destruct (first_with "read" (all_chars svs)) as [[|d r]|] eqn:Hr;
    try (by apply Hnz in Hr); reflexivity.
Qed.

Lemma mac_possible_nonempty (services : list service) :
  MacEdition.possible_chars services ≠ [] →
  ¬ (first_with "write" (all_chars services) = None ∧
     first_with "read" (all_chars services) = None ∧
     first_with "notify" (all_chars services) = None).
Proof.
  intros Hposs (Hw & Hr & Hn). apply Hposs.
  rewrite first_with_None, Forall_forall in Hw, Hr, Hn.
  unfold MacEdition.possible_chars.
  induction (all_chars services) as [|c chars IH]; [done|].
  rewrite filter_cons_False.
  - apply IH; intros x Hx; [apply Hw|apply Hr|apply Hn]; by right.
  - rewrite (Hw c), (Hr c), (Hn c) by by left. done.
Qed.

Lemma mac_detect_returns pr services ops cmd resp :
  Forall (λ c, uuid c ≠ "") (all_chars services) →
  MacEdition.detect_characteristics pr services = (ops, Ok (cmd, resp)) →
  MacEdition.possible_chars services ≠ [] ∧
  cmd = match first_with "write" (all_chars services) with
        | Some w => Some w
        | None => first_with "read" (all_chars services)
        end ∧
  resp = match first_with "notify" (all_chars services) with
         | Some n => Some n
         | None => cmd
         end ∧
  ops = MacEdition.tests pr cmd resp.
Proof.
  intros Hne. unfold MacEdition.detect_characteristics.
  destruct (MacEdition.enter pr) as [connected|]; [|done].
  destruct (decide (MacEdition.possible_chars services = [])) as [Hnil|Hposs].
  - unfold MacEdition.detect_body. rewrite Hnil.
    destruct connected, services, (MacEdition.leave pr); done.
  - destruct connected.
    + rewrite mac_detect_body_spec by done.
      destruct (MacEdition.leave pr); [|done]. by intros [= <- <- <-].
    + cbn. by destruct (MacEdition.leave pr).
Qed.

(** In [macedition.py], when no uuid is empty, a detection that returns
    always gives a response characteristic, the uuid of one of the
    characteristics; the command characteristic is [None] exactly when no
    characteristic offers [write] or [read]. *)
Theorem mac_detection_response_is_set pr services ops cmd resp :
  Forall (λ c, uuid c ≠ "") (all_chars services) →
  MacEdition.detect_characteristics pr services = (ops, Ok (cmd, resp)) →
  (∃ c, c ∈ all_chars services ∧ resp = Some (uuid c)) ∧
  (cmd = None ↔
   Forall (λ c, has "write" (properties c) = false ∧
                has "read" (properties c) = false) (all_chars services)).
Proof.
  intros Hne Hdet.
  destruct (mac_detect_returns _ _ _ _ _ Hne Hdet) as (Hposs & -> & -> & _).
  apply mac_possible_nonempty in Hposs.
  assert (∀ p u, first_with p (all_chars services) = Some u →
                 ∃ c, c ∈ all_chars services ∧ Some u = Some (uuid c)) as Hmem.
  { intros p u (c & Hin & <- & _)%first_with_Some. by exists c. }
  split.
  - destruct (first_with "notify" (all_chars services)) as [n|] eqn:Hn;
      [by eapply Hmem|].
    destruct (first_with "write" (all_chars services)) as [w|] eqn:Hw;
      [by eapply Hmem|].
    destruct (first_with "read" (all_chars services)) as [r|] eqn:Hr;
      [by eapply Hmem|].
    by destruct Hposs.
  - rewrite Forall_and, <- !first_with_None.
    destruct (first_with "write" (all_chars services)),
      (first_with "read" (all_chars services)); split; try done;
      by intros [? ?].
Qed.

(** The detection of [macedition.py] is not read-only: whenever it returns
    a command characteristic it has read it and written the four bytes
    [test] to it, once, before anything else. *)
Theorem mac_detection_writes_test pr services ops c resp :
  Forall (λ c, uuid c ≠ "") (all_chars services) →
  MacEdition.detect_characteristics pr services = (ops, Ok (Some c, resp)) →
  ∃ rest,
    ops = MacEdition.Read c
          :: MacEdition.Write c (String.list_byte_of_string "test") :: rest ∧
    Forall (λ op, ∀ u b, op ≠ MacEdition.Write u b) rest.
Proof.
  intros Hne Hdet.
  destruct (mac_detect_returns _ _ _ _ _ Hne Hdet) as (_ & Hcmd & _ & ->).
  assert (c ≠ "") as Hc.
  {
    destruct (first_with "write" (all_chars services)) as [w|] eqn:Hw.
    - injection Hcmd as ->. apply first_with_Some in Hw as (x & Hin & <- & _).
      rewrite Forall_forall in Hne. by apply Hne.
    - symmetry in Hcmd. apply first_with_Some in Hcmd as (x & Hin & <- & _).
      rewrite Forall_forall in Hne. by apply Hne. }
  unfold MacEdition.tests. destruct c as [|a c]; [done|].
  eexists. split; [reflexivity|].
  destruct resp as [[|b r]|]; [constructor| |constructor].
  destruct (MacEdition.start_test pr); repeat constructor; done.
Qed.

(** The two editions select the same pair of characteristics whenever some
    characteristic offers [write], the uuids are distinct and not empty,
    and both detections get through. *)
Theorem editions_detect_alike attempts k pr services w :
  NoDup (uuid <$> all_chars services) →
  Forall (λ c, uuid c ≠ "") (all_chars services) →
  first_with "write" (all_chars services) = Some w →
  (Device.safe_connect attempts 3).2 = Ok k →
  MacEdition.enter pr = Ok true →
  MacEdition.leave pr = Ok () →
  (MacEdition.detect_characteristics pr services).2
  = MainEdition.detect_characteristics attempts services (Ok ()).
Proof.
  intros Hnd Hne Hw Hk Henter Hleave.
  rewrite (main_detect_spec _ _ k) by done.
  assert (MacEdition.possible_chars services ≠ []) as Hposs.
  { apply first_with_Some in Hw as (c & Hin & _ & Hhas).
    intros Hnil. assert (c ∈ MacEdition.possible_chars services) as Hc.
    { apply list_elem_of_filter. split; [|done]. rewrite Hhas.
      by rewrite orb_true_r. }
    rewrite Hnil in Hc. by apply elem_of_nil in Hc. }
  unfold MacEdition.detect_characteristics.
  rewrite Henter, mac_detect_body_spec, Hleave by done. cbn [snd].
  assert (MainEdition.possible_chars services ≠ []) as Hmain.
  { apply first_with_Some in Hw as (c & Hin & _ & Hhas).
    rewrite main_possible_chars. intros Hnil.
    assert (uuid c ∈ uuid <$> filter
              (λ c, has "write" (properties c) || has "notify" (properties c)
                    = true) (all_chars services)) as Hc.
    { apply list_elem_of_fmap. exists c. split; [done|].
      apply list_elem_of_filter. split; [|done]. by rewrite Hhas. }
    rewrite Hnil in Hc. by apply elem_of_nil in Hc. }
  destruct (MainEdition.possible_chars services) as [|first possible]; [done|].
  cbv zeta. rewrite Hw. cbn.
  by destruct (first_with "notify" (all_chars services)).
Qed.

(** ** The further properties on the sample data *)

Module Checks.
Import Sample Bench.

#[local] Existing Instance Ref.runtime.

(** Five bytes cut by two give three chunks. *)
Lemma chunk_bytes_count_and_sizes_witness :
  ∃ chunks,
    chunk_bytes (Ref.utf8_encode "hello") 2 = Ok chunks ∧
    Z.of_nat (length chunks) = 3.
Proof.
  destruct (chunk_bytes_count_and_sizes (Ref.utf8_encode "hello") 2)
    as (chunks & Hcut & Hcount & _); [lia|].
  exists chunks. split; [exact Hcut|]. rewrite Hcount. reflexivity.
Defined.

(** The fragments 0 and 1 of [X] in either order. *)
Lemma notif_handler_exchange_witness :
  notif_handler (notif_handler new_cycle piece0) piece1
  = notif_handler (notif_handler new_cycle piece1) piece0.
Proof.
  apply (notif_handler_exchange new_cycle piece0 piece1).
  intros f1 f2 H1 H2. vm_compute in H1, H2.
  injection H1 as <-. injection H2 as <-. cbn. congruence.
Defined.

(** The only write raises: the call ends with its exception although a
    final fragment was notified. *)
Lemma failed_write_ends_call_witness :
  send_command_and_get_response Main deaf_link command_X REQUEST_TIMEOUT
  = Raise BleakError.
Proof.
  apply (failed_write_ends_call deaf_link command_X REQUEST_TIMEOUT
           [command_X] 0 command_X BleakError).
  - reflexivity.
  - reflexivity.
  - vm_compute; reflexivity.
  - reflexivity.
  - intros j ch Hj. lia.
  - reflexivity.
Defined.


(** The detection raises at the first request. *)
Lemma failed_detection_is_not_retried_witness :
  handle_request Main initial_proxy undetected_world get_request
  = ({| connected_address := Some "AA:BB:CC:DD:EE:FF";
        CMD_CHAR := None; RESP_CHAR := None |},
     Raise RuntimeError) ∧
  (handle_request Main
     {| connected_address := Some "AA:BB:CC:DD:EE:FF";
        CMD_CHAR := None; RESP_CHAR := None |}
     plain_text_world get_request).2
  = Ok (respond Main (the_link plain_text_world)
          (command_bytes_of 5 get_request)).
Proof.
  destruct (failed_detection_is_not_retried Main undetected_world get_request
              "AA:BB:CC:DD:EE:FF" RuntimeError plain_text_world get_request)
    as (Hfirst & Hnext).
  - reflexivity.
  - discriminate.
  - reflexivity.
  - split; [exact Hfirst|]. by rewrite Hnext.
Defined.

(** No device is chosen at the first request of [plain_text_world]. *)
Lemma empty_selection_is_scanned_again_witness :
  unset (connected_address
           (handle_request Main initial_proxy plain_text_world get_request).1)
  = true.
Proof.
  apply (empty_selection_is_scanned_again Main initial_proxy plain_text_world
           get_request None); reflexivity.
Defined.

(** The index -1 selects the last device of the scan. *)
Lemma select_device_by_index_witness :
  Device.select_device (Ok scanned) (Ok "-1") = Ok (Some "11:22:33:44:55:66").
Proof.
  destruct (select_device_by_index scanned "-1" (-1)) as (_ & Hback & _).
  - discriminate.
  - vm_compute; reflexivity.
  - apply Hback. cbn. lia.
Defined.

(** The detection of [main.py] on [uart]. *)
Lemma main_detection_returns_offered_witness :
  ∃ c r,
    Some "0000ffe1" = Some c ∧ Some "0000ffe2" = Some r ∧
    c ∈ MainEdition.possible_chars uart ∧
    r ∈ MainEdition.possible_chars uart.
Proof.
  apply (main_detection_returns_offered third_time uart (Ok ())).
  vm_compute; reflexivity.
Defined.

Lemma main_detection_picks_first_witness :
  MainEdition.detect_characteristics third_time uart (Ok ())
  = Ok (Some "0000ffe1", Some "0000ffe2").
Proof.
  rewrite (main_detection_picks_first third_time uart 2).
  - reflexivity.
  - refine (bool_decide_unpack _ _). vm_compute. exact I.
  - repeat constructor; discriminate.
  - vm_compute; reflexivity.
Defined.

(** The detection of [macedition.py] on [uart]. *)
Lemma mac_detection_response_is_set_witness :
  ∃ c, c ∈ all_chars uart ∧ Some "0000ffe2" = Some (uuid c).
Proof.
  apply (mac_detection_response_is_set smooth uart
           (MacEdition.detect_characteristics smooth uart).1
           (Some "0000ffe1") (Some "0000ffe2")).
  - repeat constructor; discriminate.
  - vm_compute; reflexivity.
Defined.

Lemma mac_detection_writes_test_witness :
  ∃ rest,
    (MacEdition.detect_characteristics smooth uart).1
    = MacEdition.Read "0000ffe1"
      :: MacEdition.Write "0000ffe1" (String.list_byte_of_string "test") :: rest.
Proof.
  destruct (mac_detection_writes_test smooth uart
              (MacEdition.detect_characteristics smooth uart).1
              "0000ffe1" (Some "0000ffe2")) as (rest & Hops & _).
  - repeat constructor; discriminate.
  - vm_compute; reflexivity.
  - by exists rest.
Defined.

(** Both editions select the same pair on [uart]. *)
Lemma editions_detect_alike_witness :
  (MacEdition.detect_characteristics smooth uart).2
  = MainEdition.detect_characteristics third_time uart (Ok ()).
Proof.
  apply (editions_detect_alike third_time 2 smooth uart "0000ffe1").
  - refine (bool_decide_unpack _ _). vm_compute. exact I.
  - repeat constructor; discriminate.
  - vm_compute; reflexivity.
  - vm_compute; reflexivity.
  - reflexivity.
  - reflexivity.
Defined.

End Checks.
